(** * The page cache of amfora (package [cache]) *)

(** A shallow embedding of the Go package [cache]: the package-level
    variables [pages], [urls], [maxPages], [maxSize], [timeout] and [mu]
    become the fields of one record, and every Go function becomes a
    computation in a small state-and-failure monad that also records, in
    program order, each lock operation and each access to [pages] and
    [urls]. *)

From Stdlib Require Import ZArith Lia.
From stdpp Require Import gmap strings list fin_maps.

Open Scope Z_scope.

Set Warnings "-clear-no-such-hyp".

(** ** Pages *)

(** Modelled from the spec: the type [structs.Page] and its method [Size]
    are declared in package [structs], outside the cache package.  The spec
    gives a document an identifier, a raw content, a size in bytes derived
    from the content, and a creation timestamp.  The cache receives a
    pointer to a page; the model takes the page it points to, which the
    callers neither leave nil nor change once it is cached.  Timestamps are
    counted in nanoseconds. *)
Record Page := mkPage {
  URL : string;
  Raw : string;
  MadeAt : Z
}.

Definition Size (p : Page) : Z := Z.of_nat (String.length (Raw p)).

(** ** Machine integers and durations *)

(** A [time.Duration] is a signed 64-bit count of nanoseconds.  Go's
    multiplication wraps around; [Time.Sub], which [time.Since] calls,
    saturates instead. *)
Definition wrap64 (z : Z) : Z := (z + 2 ^ 63) mod 2 ^ 64 - 2 ^ 63.

Definition sat64 (z : Z) : Z := Z.max (- 2 ^ 63) (Z.min (2 ^ 63 - 1) z).

Definition Second : Z := 1000000000.

Definition Since (now madeAt : Z) : Z := sat64 (now - madeAt).

(** ** The package state *)

(** [sync.RWMutex], as seen by a sequential run: free, held by some
    readers, or held by a writer. *)
Inductive RWMutex := Unlocked | RLocked (readers : nat) | WLocked.

Inductive Var := Vpages | Vurls.

Inductive Event :=
| EvLock | EvUnlock | EvRLock | EvRUnlock
| EvRead (v : Var) | EvWrite (v : Var).

#[global] Instance RWMutex_eq_dec : EqDecision RWMutex.
Proof. solve_decision. Defined.
#[global] Instance Var_eq_dec : EqDecision Var.
Proof. solve_decision. Defined.
#[global] Instance Event_eq_dec : EqDecision Event.
Proof. solve_decision. Defined.

Record Cache := mkCache {
  pages : gmap string Page;
  urls : list string;
  maxPages : Z;
  maxSize : Z;
  timeout : Z;
  mu : RWMutex;
  trace : list Event
}.

Definition init : Cache :=
  {| pages := ∅; urls := []; maxPages := 0; maxSize := 0; timeout := 0;
     mu := Unlocked; trace := [] |}.

Definition with_pages (m : gmap string Page) (c : Cache) : Cache :=
  mkCache m (urls c) (maxPages c) (maxSize c) (timeout c) (mu c) (trace c).
Definition with_urls (s : list string) (c : Cache) : Cache :=
  mkCache (pages c) s (maxPages c) (maxSize c) (timeout c) (mu c) (trace c).
Definition with_maxPages (n : Z) (c : Cache) : Cache :=
  mkCache (pages c) (urls c) n (maxSize c) (timeout c) (mu c) (trace c).
Definition with_maxSize (n : Z) (c : Cache) : Cache :=
  mkCache (pages c) (urls c) (maxPages c) n (timeout c) (mu c) (trace c).
Definition with_timeout (n : Z) (c : Cache) : Cache :=
  mkCache (pages c) (urls c) (maxPages c) (maxSize c) n (mu c) (trace c).
Definition with_mu (l : RWMutex) (c : Cache) : Cache :=
  mkCache (pages c) (urls c) (maxPages c) (maxSize c) (timeout c) l (trace c).
Definition log (t : list Event) (c : Cache) : Cache :=
  mkCache (pages c) (urls c) (maxPages c) (maxSize c) (timeout c) (mu c)
          (trace c ++ t).
Definition emit (e : Event) (c : Cache) : Cache := log [e] c.

(** ** The monad *)

(** A call returns, panics, blocks for ever on the mutex, or (in the model
    only) exhausts the iteration bound of a loop.  The state is kept in
    every case. *)
Inductive Result (A : Type) :=
| Ret (a : A) | Panic | Deadlock | OutOfFuel.
Arguments Ret {A} a.
Arguments Panic {A}.
Arguments Deadlock {A}.
Arguments OutOfFuel {A}.

Definition M (A : Type) : Type := Cache → Result A * Cache.

Definition ret {A} (a : A) : M A := λ c, (Ret a, c).

Definition bind {A B} (m : M A) (k : A → M B) : M B :=
  λ c, match m c with
       | (Ret a, c') => k a c'
       | (Panic, c') => (Panic, c')
       | (Deadlock, c') => (Deadlock, c')
       | (OutOfFuel, c') => (OutOfFuel, c')
       end.

Definition panic {A} : M A := λ c, (Panic, c).

Declare Scope go_scope.
Delimit Scope go_scope with go.
Notation "x <- m ;; k" := (bind m (λ x, k))
  (at level 100, m at next level, k at level 200, right associativity) : go_scope.
Notation "m ;; k" := (bind m (λ _, k))
  (at level 100, k at level 200, right associativity) : go_scope.
Open Scope go_scope.

(** Lock operations.  The mutex is not reentrant: [Lock] on a held mutex and
    [RLock] on a write-held mutex never return. *)
Definition Lock : M unit :=
  λ c, match mu c with
       | Unlocked => (Ret tt, emit EvLock (with_mu WLocked c))
       | _ => (Deadlock, c)
       end.

Definition Unlock : M unit :=
  λ c, match mu c with
       | WLocked => (Ret tt, emit EvUnlock (with_mu Unlocked c))
       | _ => (Panic, c)
       end.

Definition RLock : M unit :=
  λ c, match mu c with
       | Unlocked => (Ret tt, emit EvRLock (with_mu (RLocked 1) c))
       | RLocked n => (Ret tt, emit EvRLock (with_mu (RLocked (S n)) c))
       | WLocked => (Deadlock, c)
       end.

Definition RUnlock : M unit :=
  λ c, match mu c with
       | RLocked 1 => (Ret tt, emit EvRUnlock (with_mu Unlocked c))
       | RLocked (S (S n)) => (Ret tt, emit EvRUnlock (with_mu (RLocked (S n)) c))
       | _ => (Panic, c)
       end.

(** Accesses to the two guarded variables are recorded; the limits are
    plain variables that no function guards. *)
Definition load_pages : M (gmap string Page) :=
  λ c, (Ret (pages c), emit (EvRead Vpages) c).
Definition update_pages (f : gmap string Page → gmap string Page) : M unit :=
  λ c, (Ret tt, emit (EvWrite Vpages) (with_pages (f (pages c)) c)).
Definition load_urls : M (list string) :=
  λ c, (Ret (urls c), emit (EvRead Vurls) c).
Definition update_urls (f : list string → list string) : M unit :=
  λ c, (Ret tt, emit (EvWrite Vurls) (with_urls (f (urls c)) c)).
Definition load_maxPages : M Z := λ c, (Ret (maxPages c), c).
Definition load_maxSize : M Z := λ c, (Ret (maxSize c), c).
Definition load_timeout : M Z := λ c, (Ret (timeout c), c).

(** [for cond { body }], unrolled at most [fuel] times. *)
Fixpoint while (fuel : nat) (cond : M bool) (body : M unit) : M unit :=
  match fuel with
  | O => λ c, (OutOfFuel, c)
  | S n => b <- cond ;; if b : bool then (body ;; while n cond body) else ret tt
  end.

(** Both loops of the package remove one element of [urls] in every
    iteration, so one more iteration than [urls] has elements is all a run
    can use (see [evictPages_fuel] and [evictSize_fuel]). *)
Definition for_ (cond : M bool) (body : M unit) : M unit :=
  λ c, while (S (length (urls c))) cond body c.

(** ** The functions of the package *)

Definition SetMaxPages (max : Z) : M unit := λ c, (Ret tt, with_maxPages max c).

Definition SetMaxSize (max : Z) : M unit := λ c, (Ret tt, with_maxSize max c).

(** [time.Duration] is [int64] and [time.Second] is 1000000000; the product
    is an [int64] product. *)
Definition SetTimeout (t : Z) : M unit :=
  if decide (t ≤ 0) then λ c, (Ret tt, with_timeout 0 c)
  else λ c, (Ret tt, with_timeout (wrap64 (t * Second)) c).

(** [s[len(s)-1], s[i] = s[i], s[len(s)-1]; return s[:len(s)-1]]: both index
    expressions are checked, the two values are read, then written from
    left to right.  [None] is the index-out-of-range panic. *)
Definition removeIndex (s : list string) (i : nat) : option (list string) :=
  match s !! (length s - 1)%nat, s !! i with
  | Some y, Some x =>
      Some (take (length s - 1) (<[i := y]> (<[(length s - 1)%nat := x]> s)))
  | _, _ => None
  end.

(** The index at which the loop of [removeURL] stops, counted from [i]. *)
Fixpoint indexOf (url : string) (s : list string) (i : nat) : option nat :=
  match s with
  | [] => None
  | u :: s' => if decide (u = url) then Some i else indexOf url s' (S i)
  end.

Definition removeURL (url : string) : M unit :=
  s <- load_urls ;;
  match indexOf url s 0 with
  | Some i =>
      match removeIndex s i with
      | Some s' => update_urls (λ _, s')
      | None => panic
      end
  | None => ret tt
  end.

Definition RemovePage (url : string) : M unit :=
  Lock ;;
  update_pages (delete url) ;;
  removeURL url ;;
  Unlock.

Definition ClearPages : M unit :=
  Lock ;;
  update_pages (λ _, ∅) ;;
  update_urls (λ _, []) ;;
  Unlock.

(** The sum that [SizePages] computes.  Go iterates over the map in an
    order of its own and adds in [int]; the sum does not depend on the
    order, and the summands are lengths of strings held in memory, so that
    it stays below the range of [int]. *)
Definition total_size (m : gmap string Page) : Z :=
  map_fold (λ _ p n, n + Size p) 0 m.

Definition SizePages : M Z :=
  RLock ;;
  m <- load_pages ;;
  RUnlock ;;
  ret (total_size m).

Definition NumPages : M Z :=
  RLock ;;
  m <- load_pages ;;
  RUnlock ;;
  ret (Z.of_nat (size m)).

(** [RemovePage(urls[0])]: the head is read before [RemovePage] takes the
    lock. *)
Definition evictHead : M unit :=
  s <- load_urls ;;
  match s !! 0%nat with
  | Some u => RemovePage u
  | None => panic
  end.

Definition evictPages : M unit :=
  for_ (n <- NumPages ;; mP <- load_maxPages ;; ret (bool_decide (mP ≤ n) && bool_decide (0 < mP)))
       evictHead.

Definition evictSize (p : Page) : M unit :=
  for_ (n <- SizePages ;; mS <- load_maxSize ;;
        ret (bool_decide (mS < n + Size p) && bool_decide (0 < mS)))
       evictHead.

Definition AddPage (p : Page) : M unit :=
  if decide (URL p = "") then ret tt
  else
    mS <- load_maxSize ;;
    if decide (mS < Size p ∧ 0 < mS) then ret tt
    else
      evictPages ;;
      evictSize p ;;
      Lock ;;
      update_pages <[URL p := p]> ;;
      removeURL (URL p) ;;
      update_urls (λ s, s ++ [URL p]) ;;
      Unlock.

(** [now] is the reading of the clock that [time.Since] takes. *)
Definition GetPage (now : Z) (url : string) : M (option Page * bool) :=
  RLock ;;
  m <- load_pages ;;
  tO <- load_timeout ;;
  RUnlock ;;
  match m !! url with
  | Some p =>
      if bool_decide (tO = 0) || bool_decide (Since now (MadeAt p) < tO)
      then ret (Some p, true)
      else ret (None, false)
  | None => ret (None, false)
  end.

(** ** Running a sequence of calls *)

Inductive Op :=
| OSetMaxPages (max : Z) | OSetMaxSize (max : Z) | OSetTimeout (t : Z)
| OAddPage (p : Page) | ORemovePage (url : string) | OClearPages
| OSizePages | ONumPages | OGetPage (now : Z) (url : string).

Definition exec (o : Op) : M unit :=
  match o with
  | OSetMaxPages n => SetMaxPages n
  | OSetMaxSize n => SetMaxSize n
  | OSetTimeout t => SetTimeout t
  | OAddPage p => AddPage p
  | ORemovePage u => RemovePage u
  | OClearPages => ClearPages
  | OSizePages => _ <- SizePages ;; ret tt
  | ONumPages => _ <- NumPages ;; ret tt
  | OGetPage now u => _ <- GetPage now u ;; ret tt
  end.

(** The states in which a call can find the package: the initial one and
    those that a returned call leaves. *)
Inductive reachable : Cache → Prop :=
| reach_init : reachable init
| reach_step c o c' : reachable c → exec o c = (Ret tt, c') → reachable c'.

Fixpoint AddPages (ps : list Page) : M unit :=
  match ps with
  | [] => ret tt
  | p :: ps' => AddPage p ;; AddPages ps'
  end.

(** * Properties *)

(** ** Slices: [removeIndex] and the scan of [removeURL] *)

Section slices.
Implicit Types (s : list string) (url : string) (i k : nat).

Lemma indexOf_Some url s k i :
  indexOf url s k = Some i →
  ∃ j, i = (k + j)%nat ∧ s !! j = Some url ∧ url ∉ take j s.
Proof.
  revert k. induction s as [|u s IH]; intros k; simpl; [done|].
  case_decide as Hu.
  - intros [= <-]. exists 0%nat. subst u. split; [lia|]. split; [done|].
    simpl. apply not_elem_of_nil.
  - intros Hs. apply IH in Hs as (j & Hi & Hj & Hn). subst i. exists (S j). split; [lia|]. split; [done|].
    simpl. rewrite not_elem_of_cons. done.
Qed.

Lemma indexOf_None url s k : indexOf url s k = None ↔ url ∉ s.
Proof.
  revert k. induction s as [|u s IH]; intros k; simpl.
  - split; [intros _; apply not_elem_of_nil | done].
  - case_decide as Hu.
    + subst u. split; [done|]. intros []. apply elem_of_cons. by left.
    + rewrite IH, not_elem_of_cons.
      split; [intros ?; split; [by intros ->|done] | by intros [_ ?]].
Qed.

(** Removing index [i] keeps every other element, in some order. *)
Lemma removeIndex_Some s i x :
  s !! i = Some x →
  ∃ s', removeIndex s i = Some s' ∧ s ≡ₚ x :: s'.
Proof.
  intros Hi.
  destruct (list_elem_of_split_length s i x Hi) as (l1 & l2 & -> & ->).
  unfold removeIndex. rewrite Hi.
  destruct l2 as [|y l2 _] using rev_ind.
  - replace (length (l1 ++ [x]) - 1)%nat with (length l1)
      by (rewrite length_app; simpl; lia).
    rewrite Hi. eexists; split; [reflexivity|].
    rewrite list_insert_insert_eq, list_insert_id by done.
    rewrite take_app_length. by rewrite Permutation_app_comm.
  - set (l := l1 ++ x :: l2).
    replace (l1 ++ x :: l2 ++ [y]) with (l ++ [y])
      by (unfold l; by rewrite <- app_assoc).
    assert (Hl : (length l1 < length l)%nat)
      by (unfold l; rewrite length_app; simpl; lia).
    replace (length (l ++ [y]) - 1)%nat with (length l + 0)%nat
      by (rewrite length_app; simpl; lia).
    rewrite lookup_app_r by lia.
    replace (length l + 0 - length l)%nat with 0%nat by lia.
    simpl. eexists; split; [reflexivity|].
    rewrite insert_app_r. simpl.
    rewrite insert_app_l by done.
    rewrite take_app_length' by (rewrite length_insert; lia).
    unfold l. rewrite insert_app_r_alt by lia. rewrite Nat.sub_diag. simpl.
    rewrite <- app_assoc. simpl.
    rewrite (Permutation_app_comm l2 [y]). simpl.
    by rewrite <- !Permutation_middle.
Qed.

End slices.

(** ** What each function does to the state *)

(** The order record after [removeURL], and the events the call leaves. *)
Definition remove_url (url : string) (s : list string) : list string :=
  match indexOf url s 0 with
  | Some i => default s (removeIndex s i)
  | None => s
  end.

Definition removeURL_trace (url : string) (s : list string) : list Event :=
  match indexOf url s 0 with
  | Some _ => [EvRead Vurls; EvWrite Vurls]
  | None => [EvRead Vurls]
  end.

Definition query_trace : list Event := [EvRLock; EvRead Vpages; EvRUnlock].

Definition RemovePage_trace (url : string) (s : list string) : list Event :=
  EvLock :: EvWrite Vpages :: removeURL_trace url s ++ [EvUnlock].

Lemma Cache_eq c1 c2 :
  pages c1 = pages c2 → urls c1 = urls c2 → maxPages c1 = maxPages c2 →
  maxSize c1 = maxSize c2 → timeout c1 = timeout c2 → mu c1 = mu c2 →
  trace c1 = trace c2 → c1 = c2.
Proof. destruct c1, c2; simpl; congruence. Qed.

Ltac cache_eq :=
  apply Cache_eq; simpl; rewrite <- ?app_assoc; try reflexivity.

Section runs.
Implicit Types (c : Cache) (url : string) (p : Page).

Lemma remove_url_perm url s :
  url ∈ s → s ≡ₚ url :: remove_url url s.
Proof.
  intros Hin. unfold remove_url.
  destruct (indexOf url s 0) as [i|] eqn:Hi.
  - apply indexOf_Some in Hi as (j & -> & Hj & _). simpl.
    destruct (removeIndex_Some s j url Hj) as (s' & -> & Hp). done.
  - by apply indexOf_None in Hi.
Qed.

Lemma remove_url_notin url s : url ∉ s → remove_url url s = s.
Proof.
  intros Hn. unfold remove_url.
  by rewrite (proj2 (indexOf_None url s 0) Hn).
Qed.

Lemma removeURL_run url c :
  removeURL url c =
  (Ret tt, log (removeURL_trace url (urls c)) (with_urls (remove_url url (urls c)) c)).
Proof.
  unfold removeURL, removeURL_trace, remove_url, bind, load_urls. simpl.
  destruct (indexOf url (urls c) 0) as [i|] eqn:Hi.
  - apply indexOf_Some in Hi as (j & -> & Hj & _). simpl.
    destruct (removeIndex_Some _ j url Hj) as (s' & -> & _). simpl.
    unfold update_urls. f_equal. cache_eq.
  - unfold ret. f_equal.
Qed.

Lemma RemovePage_run url c :
  mu c = Unlocked →
  RemovePage url c =
  (Ret tt, log (RemovePage_trace url (urls c))
             (with_urls (remove_url url (urls c))
                (with_pages (delete url (pages c)) c))).
Proof.
  intros Hmu. unfold RemovePage, bind, Lock. rewrite Hmu.
  unfold update_pages. rewrite removeURL_run. simpl.
  unfold Unlock. simpl. f_equal. cache_eq. done.
Qed.

Lemma ClearPages_run c :
  mu c = Unlocked →
  ClearPages c =
  (Ret tt, log [EvLock; EvWrite Vpages; EvWrite Vurls; EvUnlock]
             (with_urls [] (with_pages ∅ c))).
Proof.
  intros Hmu. unfold ClearPages, bind, Lock. rewrite Hmu.
  unfold update_pages, update_urls, Unlock. simpl. f_equal. cache_eq. done.
Qed.

Lemma NumPages_run c :
  mu c = Unlocked →
  NumPages c = (Ret (Z.of_nat (size (pages c))), log query_trace c).
Proof.
  intros Hmu. unfold NumPages, bind, RLock. rewrite Hmu.
  unfold load_pages, RUnlock, ret. simpl. f_equal. cache_eq. done.
Qed.

Lemma SizePages_run c :
  mu c = Unlocked →
  SizePages c = (Ret (total_size (pages c)), log query_trace c).
Proof.
  intros Hmu. unfold SizePages, bind, RLock. rewrite Hmu.
  unfold load_pages, RUnlock, ret. simpl. f_equal. cache_eq. done.
Qed.

(** The answer of [GetPage], as a function of the state. *)
Definition lookup_fresh (now : Z) (url : string) (c : Cache) : option Page * bool :=
  match pages c !! url with
  | Some p =>
      if bool_decide (timeout c = 0) || bool_decide (Since now (MadeAt p) < timeout c)
      then (Some p, true) else (None, false)
  | None => (None, false)
  end.

Lemma GetPage_run now url c :
  mu c = Unlocked →
  GetPage now url c = (Ret (lookup_fresh now url c), log query_trace c).
Proof.
  intros Hmu. unfold GetPage, lookup_fresh, bind, RLock. rewrite Hmu.
  unfold load_pages, load_timeout, RUnlock. simpl.
  destruct (pages c !! url) as [p|]; simpl.
  - destruct (_ || _); unfold ret; f_equal; cache_eq; done.
  - unfold ret; f_equal; cache_eq; done.
Qed.

End runs.

(** ** The size of the cache *)

Section sizes.
Implicit Types (m : gmap string Page) (p q : Page) (k : string).

Lemma Size_nonneg p : 0 ≤ Size p.
Proof. unfold Size. lia. Qed.

Lemma total_size_empty : total_size ∅ = 0.
Proof. unfold total_size. by rewrite map_fold_empty. Qed.

Lemma total_size_insert_None m k p :
  m !! k = None → total_size (<[k:=p]> m) = total_size m + Size p.
Proof.
  intros Hk. unfold total_size.
  rewrite map_fold_insert_L; [done| |done]. intros; lia.
Qed.

Lemma total_size_delete_Some m k q :
  m !! k = Some q → total_size m = total_size (delete k m) + Size q.
Proof.
  intros Hk. rewrite <- (insert_delete_id m k q) at 1 by done.
  apply total_size_insert_None, lookup_delete_eq.
Qed.

Lemma total_size_nonneg m : 0 ≤ total_size m.
Proof.
  induction m as [|k p m Hk IH] using map_ind.
  - by rewrite total_size_empty.
  - rewrite total_size_insert_None by done. pose proof (Size_nonneg p). lia.
Qed.

Lemma total_size_delete_le m k : total_size (delete k m) ≤ total_size m.
Proof.
  destruct (m !! k) as [q|] eqn:Hk.
  - rewrite (total_size_delete_Some m k q Hk). pose proof (Size_nonneg q). lia.
  - by rewrite delete_id.
Qed.

Lemma total_size_insert_le m k p :
  total_size (<[k:=p]> m) ≤ total_size m + Size p.
Proof.
  rewrite <- insert_delete_eq.
  rewrite total_size_insert_None by apply lookup_delete_eq.
  pose proof (total_size_delete_le m k). lia.
Qed.

End sizes.

(** ** The invariant of the package *)

(** Between two calls, [urls] lists the keys of [pages] once each, no page
    is stored under the empty URL, and the mutex is free. *)
Record inv (c : Cache) : Prop := mkInv {
  inv_nodup : NoDup (urls c);
  inv_dom : list_to_set (urls c) =@{gset string} dom (pages c);
  inv_nonempty_url : pages c !! "" = None;
  inv_mu : mu c = Unlocked
}.

(** The state that [RemovePage url] and the writing part of [AddPage p]
    leave, events apart. *)
Definition removed (url : string) (c : Cache) : Cache :=
  with_urls (remove_url url (urls c)) (with_pages (delete url (pages c)) c).

Definition added (p : Page) (c : Cache) : Cache :=
  with_urls (remove_url (URL p) (urls c) ++ [URL p])
            (with_pages (<[URL p := p]> (pages c)) c).

Section invariant.
Implicit Types (c : Cache) (url : string) (p : Page) (s : list string).

Lemma remove_url_NoDup url s : NoDup s → NoDup (remove_url url s).
Proof.
  intros Hs. destruct (decide (url ∈ s)) as [Hin|Hn].
  - pose proof (remove_url_perm url s Hin) as Hp.
    rewrite Hp in Hs. by apply NoDup_cons in Hs as [_ ?].
  - by rewrite remove_url_notin.
Qed.

Lemma remove_url_set url s :
  NoDup s →
  list_to_set (remove_url url s) =@{gset string} list_to_set s ∖ {[url]}.
Proof.
  intros Hs. destruct (decide (url ∈ s)) as [Hin|Hn].
  - pose proof (remove_url_perm url s Hin) as Hp.
    assert (Hnd : NoDup (url :: remove_url url s)) by (by rewrite <- Hp).
    apply NoDup_cons in Hnd as [Hnot _].
    apply set_eq. intros x.
    rewrite elem_of_difference, !elem_of_list_to_set, elem_of_singleton.
    rewrite (Hp : s ≡ₚ _) at 2. rewrite elem_of_cons.
    split; [|tauto]. intros Hx. split; [tauto|]. by intros ->.
  - rewrite remove_url_notin by done.
    apply set_eq. intros x.
    rewrite elem_of_difference, !elem_of_list_to_set, elem_of_singleton.
    split; [|tauto]. intros Hx. split; [done|]. by intros ->.
Qed.

Lemma remove_url_length url s :
  url ∈ s → length s = S (length (remove_url url s)).
Proof. intros Hin. by rewrite (remove_url_perm url s Hin) at 1. Qed.

Lemma inv_length c : inv c → length (urls c) = size (pages c).
Proof.
  intros [Hnd Hdom _ _].
  rewrite <- (size_dom (D := gset string)), <- Hdom.
  by rewrite size_list_to_set.
Qed.

Lemma inv_log t c : inv c → inv (log t c).
Proof. intros [? ? ? ?]. by constructor. Qed.

Lemma inv_init : inv init.
Proof.
  constructor; simpl; [apply NoDup_nil_2 | by rewrite dom_empty_L | done | done].
Qed.

Lemma inv_removed url c : inv c → inv (removed url c).
Proof.
  intros [Hnd Hdom Hne Hmu]. constructor; simpl.
  - by apply remove_url_NoDup.
  - rewrite remove_url_set by done. by rewrite dom_delete_L, Hdom.
  - destruct (decide (url = "")) as [->|Hu].
    + apply lookup_delete_eq.
    + by rewrite lookup_delete_ne.
  - done.
Qed.

Lemma inv_added p c : URL p ≠ "" → inv c → inv (added p c).
Proof.
  intros Hp [Hnd Hdom Hne Hmu]. constructor; simpl.
  - apply NoDup_app. split; [by apply remove_url_NoDup|]. split.
    + intros x Hx ->%list_elem_of_singleton.
      assert (Hs : URL p ∈@{gset string} list_to_set (remove_url (URL p) (urls c)))
        by (by apply elem_of_list_to_set).
      rewrite remove_url_set in Hs by done. set_solver.
    + apply NoDup_singleton.
  - rewrite list_to_set_app_L, remove_url_set by done.
    rewrite dom_insert_L, Hdom. simpl.
    apply set_eq. intros x. destruct (decide (x = URL p)); set_solver.
  - by rewrite lookup_insert_ne.
  - done.
Qed.

Lemma inv_cleared c : inv c → inv (with_urls [] (with_pages ∅ c)).
Proof.
  intros [? ? ? ?].
  constructor; simpl; [apply NoDup_nil_2 | by rewrite dom_empty_L | done | done].
Qed.

End invariant.

(** ** Lock sections *)

(** A trace is an exclusive section when it is [Lock], accesses, [Unlock];
    a shared section when it is [RLock], reads, [RUnlock]. *)
Definition is_access (e : Event) : bool :=
  match e with EvRead _ | EvWrite _ => true | _ => false end.

Definition is_read (e : Event) : bool :=
  match e with EvRead _ => true | _ => false end.

Definition exclusive_section (t : list Event) : bool :=
  match t with
  | EvLock :: t' =>
      bool_decide (last t' = Some EvUnlock) && forallb is_access (removelast t')
  | _ => false
  end.

Definition shared_section (t : list Event) : bool :=
  match t with
  | EvRLock :: t' =>
      bool_decide (last t' = Some EvRUnlock) && forallb is_read (removelast t')
  | _ => false
  end.

(** A run of complete sections, between which [urls] may be read with no
    lock held. *)
Inductive sections : list Event → Prop :=
| sections_nil : sections []
| sections_shared t ts :
    shared_section t = true → sections ts → sections (t ++ ts)
| sections_exclusive t ts :
    exclusive_section t = true → sections ts → sections (t ++ ts)
| sections_peek ts : sections ts → sections (EvRead Vurls :: ts).

Lemma sections_app t1 t2 : sections t1 → sections t2 → sections (t1 ++ t2).
Proof.
  induction 1 as [|t ts Ht _ IH|t ts Ht _ IH|ts _ IH]; intros H2; simpl.
  - done.
  - rewrite <- app_assoc. apply sections_shared; auto.
  - rewrite <- app_assoc. apply sections_exclusive; auto.
  - apply sections_peek; auto.
Qed.

Lemma exclusive_section_intro body :
  forallb is_access body = true →
  exclusive_section (EvLock :: body ++ [EvUnlock]) = true.
Proof.
  intros Hb. simpl. rewrite last_snoc, removelast_last, Hb.
  by rewrite bool_decide_true.
Qed.

Lemma removeURL_trace_access url s :
  forallb is_access (removeURL_trace url s) = true.
Proof. unfold removeURL_trace. by destruct (indexOf url s 0). Qed.

Lemma RemovePage_trace_exclusive url s :
  exclusive_section (RemovePage_trace url s) = true.
Proof.
  unfold RemovePage_trace.
  apply (exclusive_section_intro (EvWrite Vpages :: removeURL_trace url s)).
  simpl. apply removeURL_trace_access.
Qed.

Lemma sections_query : sections query_trace.
Proof.
  rewrite <- (app_nil_r query_trace).
  apply sections_shared; [reflexivity | constructor].
Qed.

(** ** The eviction loops *)

Definition limits (c : Cache) : Z * Z * Z := (maxPages c, maxSize c, timeout c).

Lemma evictHead_run c u s :
  mu c = Unlocked → urls c = u :: s →
  evictHead c =
  (Ret tt, log (EvRead Vurls :: RemovePage_trace u (urls c)) (removed u c)).
Proof.
  intros Hmu Hs. unfold evictHead, bind, load_urls. simpl. rewrite Hs. simpl.
  rewrite RemovePage_run by done. simpl. rewrite Hs.
  f_equal. cache_eq; by rewrite Hs.
Qed.

Section eviction.
(** A loop [for cond { RemovePage(urls[0]) }] whose condition is a query
    under the read lock, can only hold of a cache that has pages (given
    what the guards of [AddPage] have established about the limits), and
    depends on the pages and the limits alone. *)
Variable cond : M bool.
Variable test : Cache → bool.
Variable guard : Cache → Prop.
Hypothesis cond_run :
  ∀ c, mu c = Unlocked → cond c = (Ret (test c), log query_trace c).
Hypothesis test_data :
  ∀ c c', pages c = pages c' → limits c = limits c' → test c = test c'.
Hypothesis guard_limits :
  ∀ c c', limits c = limits c' → guard c → guard c'.
Hypothesis test_nonempty :
  ∀ c, guard c → test c = true → pages c ≠ ∅.

Record evict_post (c c' : Cache) : Prop := mkEvictPost {
  ep_inv : inv c';
  ep_limits : limits c' = limits c;
  ep_test : test c' = false;
  ep_sub : pages c' ⊆ pages c;
  ep_trace : ∃ t, trace c' = trace c ++ t ∧ sections t;
  ep_skip : test c = false → c' = log query_trace c
}.

Lemma while_evict n c :
  inv c → guard c → (length (urls c) < n)%nat →
  ∃ c', while n cond evictHead c = (Ret tt, c') ∧ evict_post c c'.
Proof.
  revert c. induction n as [|n IH]; intros c Hinv Hg Hn; [lia|].
  simpl. unfold bind at 1. rewrite cond_run by apply Hinv.
  destruct (test c) eqn:Ht.
  - assert (Hne : pages c ≠ ∅) by eauto.
    destruct (urls c) as [|u s] eqn:Hs.
    { exfalso. apply Hne, map_size_empty_inv.
      rewrite <- inv_length by done. by rewrite Hs. }
    unfold bind.
    rewrite (evictHead_run _ u s) by (done || apply Hinv).
    set (c1 := log _ (removed u (log query_trace c))).
    assert (Hinv1 : inv c1) by (by apply inv_log, inv_removed, inv_log).
    assert (Hlen : length (u :: s) = S (length (urls c1))).
    { rewrite <- Hs. apply (remove_url_length u (urls c)).
      rewrite Hs. apply elem_of_cons. by left. }
    destruct (IH c1) as (c' & Hrun & Hpost).
    { done. }
    { eapply guard_limits; [|done]. done. }
    { lia. }
    exists c'. split; [done|].
    destruct Hpost as [? Hl ? Hsub (t & Ht' & Hsec) _].
    constructor; try done.
    + etrans; [done|]. apply delete_subseteq.
    + eexists. split.
      * rewrite Ht'. simpl. rewrite <- !app_assoc. reflexivity.
      * apply sections_app; [apply sections_query|].
        apply sections_app; [|done].
        apply sections_peek.
        rewrite <- (app_nil_r (RemovePage_trace _ _)).
        apply sections_exclusive; [apply RemovePage_trace_exclusive|constructor].
    + congruence.
  - exists (log query_trace c). split; [done|].
    constructor; try done.
    + by apply inv_log.
    + rewrite <- Ht. by apply test_data.
    + exists query_trace. split; [done|apply sections_query].
Qed.

Lemma for_evict c :
  inv c → guard c → ∃ c', for_ cond evictHead c = (Ret tt, c') ∧ evict_post c c'.
Proof. intros. apply while_evict; [done|done|lia]. Qed.

End eviction.

(** ** [AddPage] *)

Definition test_pages (c : Cache) : bool :=
  bool_decide (maxPages c ≤ Z.of_nat (size (pages c))) && bool_decide (0 < maxPages c).

Definition test_size (p : Page) (c : Cache) : bool :=
  bool_decide (maxSize c < total_size (pages c) + Size p) && bool_decide (0 < maxSize c).

(** The page passes the second guard of [AddPage]. *)
Definition fits (p : Page) (c : Cache) : Prop :=
  ¬ (maxSize c < Size p ∧ 0 < maxSize c).

Definition write_trace (p : Page) (s : list string) : list Event :=
  EvLock :: EvWrite Vpages :: removeURL_trace (URL p) s ++ [EvWrite Vurls; EvUnlock].

Section AddPage_runs.
Implicit Types (c : Cache) (p : Page).

Lemma evictPages_run c :
  inv c → ∃ c', evictPages c = (Ret tt, c') ∧ evict_post test_pages c c'.
Proof.
  intros Hinv. unfold evictPages.
  apply (for_evict _ test_pages (λ _, True)); try done.
  - intros c0 Hmu. unfold bind. by rewrite NumPages_run.
  - intros c0 c0' Hp [= H1 H2 H3]. unfold test_pages. by rewrite Hp, H1.
  - intros c0 _ [Hle Hpos]%andb_prop He.
    apply bool_decide_eq_true in Hle, Hpos.
    rewrite He, map_size_empty in Hle. simpl in Hle. lia.
Qed.

Lemma evictSize_run p c :
  inv c → fits p c →
  ∃ c', evictSize p c = (Ret tt, c') ∧ evict_post (test_size p) c c'.
Proof.
  intros Hinv Hfit. unfold evictSize.
  apply (for_evict _ (test_size p) (fits p)); try done.
  - intros c0 Hmu. unfold bind. by rewrite SizePages_run.
  - intros c0 c0' Hp [= H1 H2 H3]. unfold test_size. by rewrite Hp, H2.
  - intros c0 c0' [= H1 H2 H3]. unfold fits. by rewrite H2.
  - intros c0 Hf [Hlt Hpos]%andb_prop He.
    apply bool_decide_eq_true in Hlt, Hpos.
    rewrite He, total_size_empty in Hlt. unfold fits in Hf. lia.
Qed.

Lemma AddPage_reject p c :
  URL p = "" ∨ (maxSize c < Size p ∧ 0 < maxSize c) → AddPage p c = (Ret tt, c).
Proof.
  intros Hrej. unfold AddPage.
  destruct (decide (URL p = "")); [done|].
  unfold bind, load_maxSize.
  destruct (decide (_ ∧ _)); [done|]. tauto.
Qed.

Lemma AddPage_run p c :
  inv c → URL p ≠ "" → fits p c →
  ∃ c1 c2,
    evictPages c = (Ret tt, c1) ∧ evict_post test_pages c c1 ∧
    evictSize p c1 = (Ret tt, c2) ∧ evict_post (test_size p) c1 c2 ∧
    AddPage p c = (Ret tt, log (write_trace p (urls c2)) (added p c2)).
Proof.
  intros Hinv Hu Hfit.
  destruct (evictPages_run c Hinv) as (c1 & Hrun1 & Hpost1).
  assert (Hfit1 : fits p c1).
  { destruct Hpost1 as [_ [= H1 H2 H3] _ _ _ _]. unfold fits. by rewrite H2. }
  destruct (evictSize_run p c1 (ep_inv _ _ _ Hpost1) Hfit1) as (c2 & Hrun2 & Hpost2).
  exists c1, c2. do 4 (split; [done|]).
  unfold AddPage. rewrite decide_False by done.
  unfold bind at 1. unfold load_maxSize.
  rewrite decide_False by done.
  unfold bind at 1. rewrite Hrun1.
  unfold bind at 1. rewrite Hrun2.
  unfold bind, Lock. rewrite (inv_mu _ (ep_inv _ _ _ Hpost2)).
  unfold update_pages. rewrite removeURL_run.
  unfold update_urls, Unlock. simpl. f_equal. cache_eq.
  symmetry. apply (inv_mu _ (ep_inv _ _ _ Hpost2)).
Qed.

End AddPage_runs.

(** ** Every call keeps the invariant and returns *)

Section steps.
Implicit Types (c : Cache) (p : Page) (o : Op).

Lemma AddPage_inv p c :
  inv c → ∃ c', AddPage p c = (Ret tt, c') ∧ inv c' ∧ limits c' = limits c.
Proof.
  intros Hinv.
  destruct (decide (URL p = "")) as [Hu|Hu].
  { exists c. by rewrite AddPage_reject by auto. }
  destruct (decide (maxSize c < Size p ∧ 0 < maxSize c)) as [Hbig|Hfit].
  { exists c. by rewrite AddPage_reject by auto. }
  destruct (AddPage_run p c Hinv Hu Hfit) as (c1 & c2 & _ & H1 & _ & H2 & ->).
  eexists. split; [done|]. split.
  - apply inv_log, inv_added; [done|apply H2].
  - change (limits c2 = limits c).
    by rewrite (ep_limits _ _ _ H2), (ep_limits _ _ _ H1).
Qed.

Lemma exec_inv o c : inv c → ∃ c', exec o c = (Ret tt, c') ∧ inv c'.
Proof.
  intros Hinv. pose proof (inv_mu _ Hinv) as Hmu.
  destruct o as [n|n|t|p|u| | | |now u]; simpl.
  - eexists; split; [done|]. by destruct Hinv.
  - eexists; split; [done|]. by destruct Hinv.
  - unfold SetTimeout. case_decide; (eexists; split; [done|]); by destruct Hinv.
  - destruct (AddPage_inv p c Hinv) as (c' & ? & ? & _). eauto.
  - rewrite RemovePage_run by done. eexists; split; [done|].
    by apply inv_log, inv_removed.
  - rewrite ClearPages_run by done. eexists; split; [done|].
    by apply inv_log, inv_cleared.
  - unfold bind. rewrite SizePages_run by done.
    eexists; split; [done|]. by apply inv_log.
  - unfold bind. rewrite NumPages_run by done.
    eexists; split; [done|]. by apply inv_log.
  - unfold bind. rewrite GetPage_run by done.
    eexists; split; [done|]. by apply inv_log.
Qed.

Lemma reachable_inv c : reachable c → inv c.
Proof.
  induction 1 as [|c o c' _ IH Hrun]; [apply inv_init|].
  destruct (exec_inv o c IH) as (c'' & Hrun' & Hinv).
  rewrite Hrun in Hrun'. by injection Hrun' as ->.
Qed.

(** The two bounds of the cache. *)
Definition bounded (c : Cache) : Prop :=
  (0 < maxPages c → Z.of_nat (size (pages c)) ≤ maxPages c) ∧
  (0 < maxSize c → total_size (pages c) ≤ maxSize c).

Lemma AddPage_bounded p c :
  inv c → bounded c →
  ∃ c', AddPage p c = (Ret tt, c') ∧ inv c' ∧ limits c' = limits c ∧ bounded c'.
Proof.
  intros Hinv Hb.
  destruct (decide (URL p = "")) as [Hu|Hu].
  { exists c. by rewrite AddPage_reject by auto. }
  destruct (decide (maxSize c < Size p ∧ 0 < maxSize c)) as [Hbig|Hfit].
  { exists c. by rewrite AddPage_reject by auto. }
  destruct (AddPage_run p c Hinv Hu Hfit) as (c1 & c2 & _ & H1 & _ & H2 & ->).
  eexists. split; [done|].
  destruct H1 as [_ Hl1 Ht1 _ _ _], H2 as [Hinv2 Hl2 Ht2 Hsub2 _ _].
  injection Hl1 as HP1 HS1 HT1. injection Hl2 as HP2 HS2 HT2.
  split; [by apply inv_log, inv_added|]. split.
  { unfold limits. simpl. congruence. }
  unfold bounded. simpl. split.
  - intros Hpos. unfold test_pages in Ht1.
    apply andb_false_iff in Ht1 as [Ht1|Ht1]; apply bool_decide_eq_false in Ht1;
      [|lia].
    pose proof (map_subseteq_size _ _ Hsub2) as Hsz.
    pose proof (map_size_insert (URL p) p (pages c2)) as Hins.
    destruct (pages c2 !! URL p); simpl in Hins; lia.
  - intros Hpos. unfold test_size in Ht2.
    apply andb_false_iff in Ht2 as [Ht2|Ht2]; apply bool_decide_eq_false in Ht2;
      [|lia].
    pose proof (total_size_insert_le (pages c2) (URL p) p). lia.
Qed.

Lemma AddPages_bounded ps c :
  inv c → bounded c →
  ∃ c', AddPages ps c = (Ret tt, c') ∧ inv c' ∧ limits c' = limits c ∧ bounded c'.
Proof.
  revert c. induction ps as [|p ps IH]; intros c Hinv Hb; simpl.
  - by exists c.
  - destruct (AddPage_bounded p c Hinv Hb) as (c1 & Hrun & Hinv1 & Hl1 & Hb1).
    destruct (IH c1 Hinv1 Hb1) as (c' & Hrun' & ? & Hl' & ?).
    exists c'. unfold bind. rewrite Hrun. split; [done|].
    split; [done|]. split; [congruence|done].
Qed.

End steps.

(** ** What no call touches: the limits *)

Section frame.
Context {A B : Type}.

Definition keeps_limits {X} (m : M X) : Prop :=
  ∀ c, limits (snd (m c)) = limits c.

Lemma keeps_ret (a : A) : keeps_limits (ret a).
Proof. done. Qed.

Lemma keeps_bind (m : M A) (k : A → M B) :
  keeps_limits m → (∀ a, keeps_limits (k a)) → keeps_limits (bind m k).
Proof.
  intros Hm Hk c. unfold bind. specialize (Hm c).
  destruct (m c) as [[a| | |] c']; simpl in *; try done.
  by rewrite Hk.
Qed.
End frame.

Lemma keeps_Lock : keeps_limits Lock.
Proof. intros c. unfold Lock. by destruct (mu c). Qed.
Lemma keeps_Unlock : keeps_limits Unlock.
Proof. intros c. unfold Unlock. by destruct (mu c). Qed.
Lemma keeps_RLock : keeps_limits RLock.
Proof. intros c. unfold RLock. by destruct (mu c). Qed.
Lemma keeps_RUnlock : keeps_limits RUnlock.
Proof. intros c. unfold RUnlock. by destruct (mu c) as [|[|[|?]]|]. Qed.
Lemma keeps_load_pages : keeps_limits load_pages.
Proof. done. Qed.
Lemma keeps_load_urls : keeps_limits load_urls.
Proof. done. Qed.
Lemma keeps_update_pages f : keeps_limits (update_pages f).
Proof. done. Qed.
Lemma keeps_update_urls f : keeps_limits (update_urls f).
Proof. done. Qed.
Lemma keeps_load_maxPages : keeps_limits load_maxPages.
Proof. done. Qed.
Lemma keeps_load_maxSize : keeps_limits load_maxSize.
Proof. done. Qed.
Lemma keeps_load_timeout : keeps_limits load_timeout.
Proof. done. Qed.
Lemma keeps_panic {A} : keeps_limits (@panic A).
Proof. done. Qed.

Create HintDb frame.
#[local] Hint Resolve keeps_Lock keeps_Unlock keeps_RLock keeps_RUnlock
  keeps_load_pages keeps_load_urls keeps_update_pages keeps_update_urls
  keeps_load_maxPages keeps_load_maxSize keeps_load_timeout : frame.
#[local] Hint Extern 1 (keeps_limits (ret _)) => apply keeps_ret : frame.
#[local] Hint Extern 1 (keeps_limits panic) => apply keeps_panic : frame.
#[local] Hint Extern 2 (keeps_limits (bind _ _)) =>
  apply keeps_bind; [|intros ?] : frame.

Ltac frame := auto 20 with frame.

Lemma keeps_while n cond body :
  keeps_limits cond → keeps_limits body → keeps_limits (while n cond body).
Proof.
  intros Hc Hb. induction n as [|n IH]; simpl; [done|].
  apply keeps_bind; [done|]. intros []; [|apply keeps_ret].
  by apply keeps_bind.
Qed.

Lemma keeps_for cond body :
  keeps_limits cond → keeps_limits body → keeps_limits (for_ cond body).
Proof. intros Hc Hb c. unfold for_. by apply keeps_while. Qed.

Lemma keeps_removeURL url : keeps_limits (removeURL url).
Proof. intros c. by rewrite removeURL_run. Qed.
#[local] Hint Resolve keeps_removeURL : frame.

Lemma keeps_RemovePage url : keeps_limits (RemovePage url).
Proof. unfold RemovePage. frame. Qed.

Lemma keeps_ClearPages : keeps_limits ClearPages.
Proof. unfold ClearPages. frame. Qed.

Lemma keeps_SizePages : keeps_limits SizePages.
Proof. unfold SizePages. frame. Qed.

Lemma keeps_NumPages : keeps_limits NumPages.
Proof. unfold NumPages. frame. Qed.

Lemma keeps_GetPage now url : keeps_limits (GetPage now url).
Proof.
  unfold GetPage. do 4 (apply keeps_bind; [frame|intros ?]).
  repeat case_match; apply keeps_ret.
Qed.

Lemma keeps_evictHead : keeps_limits evictHead.
Proof.
  unfold evictHead. apply keeps_bind; [frame|]. intros s.
  destruct (s !! 0%nat); [apply keeps_RemovePage | apply keeps_panic].
Qed.
#[local] Hint Resolve keeps_RemovePage keeps_SizePages keeps_NumPages
  keeps_evictHead : frame.

Lemma keeps_evictPages : keeps_limits evictPages.
Proof. unfold evictPages. apply keeps_for; frame. Qed.

Lemma keeps_evictSize p : keeps_limits (evictSize p).
Proof. unfold evictSize. apply keeps_for; frame. Qed.

Lemma keeps_AddPage p : keeps_limits (AddPage p).
Proof.
  unfold AddPage. case_decide; [apply keeps_ret|].
  apply keeps_bind; [frame|]. intros mS.
  case_decide; [apply keeps_ret|].
  apply keeps_bind; [apply keeps_evictPages|]. intros _.
  apply keeps_bind; [apply keeps_evictSize|]. intros _.
  frame.
Qed.

(** ** The iteration bound of the loops is never reached *)

Section fuel.
Variable cond : M bool.
Hypothesis cond_fuel : ∀ c, fst (cond c) ≠ OutOfFuel.
Hypothesis cond_urls : ∀ c, urls (snd (cond c)) = urls c.

Lemma evictHead_shrinks c :
  fst (evictHead c) ≠ OutOfFuel ∧
  (fst (evictHead c) = Ret tt →
   length (urls c) = S (length (urls (snd (evictHead c))))).
Proof.
  unfold evictHead, bind, load_urls. simpl.
  destruct (urls c) as [|u s] eqn:Hs; simpl; [done|].
  unfold RemovePage, bind, Lock. simpl.
  destruct (mu c); simpl; try done.
  unfold update_pages. rewrite removeURL_run. simpl.
  split; [done|]. intros _. rewrite Hs.
  apply (remove_url_length u (u :: s)), elem_of_cons. by left.
Qed.

Lemma while_fuel n c :
  (length (urls c) < n)%nat → fst (while n cond evictHead c) ≠ OutOfFuel.
Proof.
  revert c. induction n as [|n IH]; intros c Hn; [lia|].
  simpl. unfold bind at 1.
  pose proof (cond_fuel c) as Hf. pose proof (cond_urls c) as Hu.
  destruct (cond c) as [[[|]| | |] c1]; simpl in *; try done.
  unfold bind.
  destruct (evictHead_shrinks c1) as [Hf1 Hlen].
  destruct (evictHead c1) as [[[]| | |] c2]; simpl in *; try done.
  apply IH. specialize (Hlen eq_refl). rewrite Hu in Hlen. lia.
Qed.

Lemma for_fuel c : fst (for_ cond evictHead c) ≠ OutOfFuel.
Proof. unfold for_. apply while_fuel. lia. Qed.

End fuel.

Lemma evictPages_fuel c : fst (evictPages c) ≠ OutOfFuel.
Proof.
  apply for_fuel; intros c0; unfold bind, NumPages, bind, RLock,
    load_pages, RUnlock, load_maxPages, ret; simpl;
    by destruct (mu c0) as [|[|?]|].
Qed.

Lemma evictSize_fuel p c : fst (evictSize p c) ≠ OutOfFuel.
Proof.
  apply for_fuel; intros c0; unfold bind, SizePages, bind, RLock,
    load_pages, RUnlock, load_maxSize, ret; simpl;
    by destruct (mu c0) as [|[|?]|].
Qed.

(** ** Sequences of calls *)

Fixpoint run (os : list Op) : M unit :=
  match os with
  | [] => ret tt
  | o :: os' => exec o ;; run os'
  end.

Lemma reachable_run os c c' :
  reachable c → run os c = (Ret tt, c') → reachable c'.
Proof.
  revert c. induction os as [|o os IH]; intros c Hc; simpl.
  - by intros [= <-].
  - unfold bind. destruct (exec o c) as [[[]| | |] c1] eqn:Ho; try done.
    apply IH. by apply (reach_step c o).
Qed.

(** The events that a call adds to the trace. *)
Definition events {A} (m : M A) (c : Cache) : list Event :=
  drop (length (trace c)) (trace (snd (m c))).

Lemma events_log {A} (m : M A) c r t c' :
  m c = (r, log t c') → trace c' = trace c → events m c = t.
Proof.
  intros Hrun Htr. unfold events. rewrite Hrun. simpl.
  by rewrite Htr, drop_app_length.
Qed.

(** * The claims *)

(** C1. In every sequence of [AddPage] calls run from the empty cache, under
    whatever limits were configured, every call returns, and the state it
    leaves holds at most [maxPages] pages when [maxPages > 0] and at most
    [maxSize] bytes when [maxSize > 0].  (Every prefix of a sequence is a
    sequence, so the bounds hold after each call.) *)
Theorem AddPage_keeps_bounds (mP mS : Z) (ps : list Page) :
  ∃ c, (SetMaxPages mP ;; SetMaxSize mS ;; AddPages ps) init = (Ret tt, c) ∧
       maxPages c = mP ∧ maxSize c = mS ∧
       (∃ n c', NumPages c = (Ret n, c') ∧ (0 < mP → n ≤ mP)) ∧
       (∃ n c', SizePages c = (Ret n, c') ∧ (0 < mS → n ≤ mS)).
Proof.
  set (c0 := with_maxSize mS (with_maxPages mP init)).
  assert (Hinv0 : inv c0).
  { constructor; simpl; [apply NoDup_nil_2 | by rewrite dom_empty_L | done | done]. }
  assert (Hb0 : bounded c0).
  { split; simpl; intros ?; [rewrite map_size_empty | rewrite total_size_empty]; lia. }
  destruct (AddPages_bounded ps c0 Hinv0 Hb0) as (c & Hrun & Hinv & Hl & [Hb1 Hb2]).
  injection Hl as HP HS _. simpl in HP, HS.
  exists c. split; [exact Hrun|]. split; [done|]. split; [done|].
  pose proof (inv_mu _ Hinv) as Hmu. split.
  - rewrite NumPages_run by done. eexists _, _. split; [done|].
    rewrite <- HP. exact Hb1.
  - rewrite SizePages_run by done. eexists _, _. split; [done|].
    rewrite <- HS. exact Hb2.
Qed.

(** C3. In every state that a returned call leaves, [urls] holds no URL
    twice and the set of its elements is the set of keys of [pages]. *)
Theorem urls_are_keys_of_pages (c : Cache) :
  reachable c →
  NoDup (urls c) ∧ list_to_set (urls c) =@{gset string} dom (pages c).
Proof. intros Hc. by destruct (reachable_inv c Hc). Qed.

Definition witness_ops : list Op :=
  [OSetMaxPages 2; OAddPage (mkPage "a" "1" 0); OAddPage (mkPage "b" "22" 0);
   OGetPage 5 "a"; OAddPage (mkPage "c" "333" 0); ORemovePage "b"].

Definition witness_state : Cache := snd (run witness_ops init).

Lemma witness_state_reachable : reachable witness_state.
Proof. apply (reachable_run witness_ops init); [constructor | by vm_compute]. Defined.

Lemma urls_are_keys_of_pages_witness :
  NoDup (urls witness_state) ∧
  list_to_set (urls witness_state) =@{gset string} dom (pages witness_state).
Proof. apply urls_are_keys_of_pages, witness_state_reachable. Defined.

(** C5. Whatever the state, [AddPage] of a page whose URL is empty, or whose
    size exceeds a positive [maxSize], returns without failure and leaves
    the state as it was: same [pages], same [urls], same count and same
    total size. *)
Theorem AddPage_rejects_silently (c : Cache) (p : Page) :
  URL p = "" ∨ (maxSize c < Size p ∧ 0 < maxSize c) →
  fst (AddPage p c) = Ret tt ∧
  pages (snd (AddPage p c)) = pages c ∧
  urls (snd (AddPage p c)) = urls c ∧
  fst (NumPages (snd (AddPage p c))) = fst (NumPages c) ∧
  fst (SizePages (snd (AddPage p c))) = fst (SizePages c) ∧
  snd (AddPage p c) = c.
Proof. intros Hrej. by rewrite (AddPage_reject p c Hrej). Qed.

Lemma AddPage_rejects_silently_witness :
  let c := snd (run [OSetMaxSize 3; OAddPage (mkPage "a" "1" 0)] init) in
  let p := mkPage "big" "12345" 0 in
  fst (AddPage p c) = Ret tt ∧
  pages (snd (AddPage p c)) = pages c ∧
  urls (snd (AddPage p c)) = urls c ∧
  fst (NumPages (snd (AddPage p c))) = fst (NumPages c) ∧
  fst (SizePages (snd (AddPage p c))) = fst (SizePages c) ∧
  snd (AddPage p c) = c.
Proof.
  intros c p. apply AddPage_rejects_silently.
  right. vm_compute. split; reflexivity.
Defined.

(** C8. In every reachable state every function of the package returns: no
    panic, no wait on the mutex, and in particular both loops of [AddPage]
    end without reading [urls[0]] of an empty [urls].  (Page sizes are
    lengths, hence not negative.) *)
Theorem operations_total (c : Cache) :
  reachable c →
  (∀ p, ∃ c', AddPage p c = (Ret tt, c')) ∧
  (∀ url, ∃ c', RemovePage url c = (Ret tt, c')) ∧
  (∃ c', ClearPages c = (Ret tt, c')) ∧
  (∀ now url, ∃ r c', GetPage now url c = (Ret r, c')) ∧
  (∃ n c', SizePages c = (Ret n, c')) ∧
  (∃ n c', NumPages c = (Ret n, c')) ∧
  (∀ n, ∃ c', SetMaxPages n c = (Ret tt, c')) ∧
  (∀ n, ∃ c', SetMaxSize n c = (Ret tt, c')) ∧
  (∀ t, ∃ c', SetTimeout t c = (Ret tt, c')) ∧
  (∀ p, fits p c →
        ∃ c1 c2, evictPages c = (Ret tt, c1) ∧ evictSize p c1 = (Ret tt, c2)).
Proof.
  intros Hc. pose proof (reachable_inv c Hc) as Hinv.
  pose proof (inv_mu _ Hinv) as Hmu.
  repeat split.
  - intros p. destruct (AddPage_inv p c Hinv) as (c' & ? & _). eauto.
  - intros url. rewrite RemovePage_run by done. eauto.
  - rewrite ClearPages_run by done. eauto.
  - intros now url. rewrite GetPage_run by done. eauto.
  - rewrite SizePages_run by done. eauto.
  - rewrite NumPages_run by done. eauto.
  - intros n. by eexists.
  - intros n. by eexists.
  - intros t. unfold SetTimeout. case_decide; by eexists.
  - intros p Hfit.
    destruct (evictPages_run c Hinv) as (c1 & Hrun1 & Hpost1).
    assert (Hfit1 : fits p c1).
    { destruct Hpost1 as [_ [= H1 H2 H3] _ _ _ _]. unfold fits. by rewrite H2. }
    destruct (evictSize_run p c1 (ep_inv _ _ _ Hpost1) Hfit1) as (c2 & Hrun2 & _).
    eauto.
Qed.

Lemma operations_total_witness :
  (∀ p, ∃ c', AddPage p witness_state = (Ret tt, c')) ∧
  (∀ url, ∃ c', RemovePage url witness_state = (Ret tt, c')) ∧
  (∃ c', ClearPages witness_state = (Ret tt, c')) ∧
  (∀ now url, ∃ r c', GetPage now url witness_state = (Ret r, c')) ∧
  (∃ n c', SizePages witness_state = (Ret n, c')) ∧
  (∃ n c', NumPages witness_state = (Ret n, c')) ∧
  (∀ n, ∃ c', SetMaxPages n witness_state = (Ret tt, c')) ∧
  (∀ n, ∃ c', SetMaxSize n witness_state = (Ret tt, c')) ∧
  (∀ t, ∃ c', SetTimeout t witness_state = (Ret tt, c')) ∧
  (∀ p, fits p witness_state →
        ∃ c1 c2, evictPages witness_state = (Ret tt, c1) ∧
                 evictSize p c1 = (Ret tt, c2)).
Proof. apply operations_total, witness_state_reachable. Defined.

(** C10. Whatever the state and the argument, and however the call ends,
    [AddPage], [RemovePage] and [ClearPages] (and the three queries) leave
    [maxPages], [maxSize] and [timeout] as they were; each of [SetMaxPages],
    [SetMaxSize] and [SetTimeout] changes its own limit and no other. *)
Theorem limits_frame (c : Cache) :
  (∀ p, limits (snd (AddPage p c)) = limits c) ∧
  (∀ url, limits (snd (RemovePage url c)) = limits c) ∧
  limits (snd (ClearPages c)) = limits c ∧
  (∀ now url, limits (snd (GetPage now url c)) = limits c) ∧
  limits (snd (SizePages c)) = limits c ∧
  limits (snd (NumPages c)) = limits c ∧
  (∀ n, limits (snd (SetMaxPages n c)) = (n, maxSize c, timeout c)) ∧
  (∀ n, limits (snd (SetMaxSize n c)) = (maxPages c, n, timeout c)) ∧
  (∀ t, limits (snd (SetTimeout t c)) =
        (maxPages c, maxSize c, if decide (t ≤ 0) then 0 else wrap64 (t * Second))).
Proof.
  repeat split.
  - intros p. apply keeps_AddPage.
  - intros url. apply keeps_RemovePage.
  - apply keeps_ClearPages.
  - intros now url. apply keeps_GetPage.
  - apply keeps_SizePages.
  - apply keeps_NumPages.
  - intros t. unfold SetTimeout. by case_decide.
Qed.

(** C2. The order record does not stay in insertion order.  With room for
    three pages, adding "a", "b", "c", "d" evicts "a" by moving the last
    URL into its place, which leaves [urls] as "c", "b", "d"; adding "e"
    then evicts "c", although "b" was added before it. *)
Example eviction_not_fifo :
  let pg u := mkPage u "x" 0 in
  let c := snd (run [OSetMaxPages 3; OAddPage (pg "a"); OAddPage (pg "b");
                     OAddPage (pg "c"); OAddPage (pg "d")] init) in
  let c' := snd (AddPage (pg "e") c) in
  urls c = ["c"; "b"; "d"] ∧
  fst (AddPage (pg "e") c) = Ret tt ∧
  urls c' = ["d"; "b"; "e"] ∧
  fst (GetPage 0 "b" c') = Ret (Some (pg "b"), true) ∧
  fst (GetPage 0 "c" c') = Ret (None, false) ∧
  removeIndex ["a"; "b"; "c"] 0 = Some ["c"; "b"].
Proof. by vm_compute. Qed.

(** C4, as the specification states it: adding [B] under a URL that the
    cache holds leaves the count as it was, makes [GetPage] answer [B], and
    puts the URL last in [urls]. *)
Definition overwrite_claim (c : Cache) (B : Page) (now : Z) : Prop :=
  fst (NumPages (snd (AddPage B c))) = fst (NumPages c) ∧
  fst (GetPage now (URL B) (snd (AddPage B c))) = Ret (Some B, true) ∧
  last (urls (snd (AddPage B c))) = Some (URL B).

(** At a full cache the count loop evicts before the page is replaced: with
    room for two pages and "a", "x" cached, adding a new "x" evicts "a" and
    leaves one page. *)
Lemma overwrite_counterexample :
  let c := snd (run [OSetMaxPages 2; OAddPage (mkPage "a" "1" 0);
                     OAddPage (mkPage "x" "A" 0)] init) in
  let B := mkPage "x" "B" 0 in
  reachable c ∧ is_Some (pages c !! URL B) ∧
  fst (NumPages c) = Ret 2 ∧
  fst (NumPages (snd (AddPage B c))) = Ret 1 ∧
  ¬ overwrite_claim c B 0.
Proof.
  intros c B. split; [|split; [|split; [|split]]].
  - apply (reachable_run [OSetMaxPages 2; OAddPage (mkPage "a" "1" 0);
                          OAddPage (mkPage "x" "A" 0)] init);
      [constructor | by vm_compute].
  - vm_compute. eauto.
  - by vm_compute.
  - by vm_compute.
  - intros [Hcount _]. vm_compute in Hcount. discriminate Hcount.
Qed.

(** [AddPage p] evicts from [c]: one of its two loop conditions holds. *)
Definition evicts (p : Page) (c : Cache) : Prop :=
  (0 < maxPages c ∧ maxPages c ≤ Z.of_nat (size (pages c))) ∨
  (0 < maxSize c ∧ maxSize c < total_size (pages c) + Size p).

Lemma not_evicts p c :
  ¬ evicts p c → test_pages c = false ∧ test_size p c = false.
Proof.
  intros Hn. unfold test_pages, test_size. split.
  - apply andb_false_iff.
    destruct (decide (maxPages c ≤ Z.of_nat (size (pages c)))) as [H1|H1];
      [right|left]; apply bool_decide_eq_false; [|done].
    intros H2. apply Hn. by left.
  - apply andb_false_iff.
    destruct (decide (maxSize c < total_size (pages c) + Size p)) as [H1|H1];
      [right|left]; apply bool_decide_eq_false; [|done].
    intros H2. apply Hn. by right.
Qed.

(** C4, amended.  In a reachable state that holds the URL of [B], and for a
    [B] that passes the size guard, [AddPage B] returns; afterwards [pages]
    maps the URL to [B], the URL is last in [urls], [GetPage] answers [B]
    whenever [B] is not stale, the count has not grown, and the count is
    what it was when neither loop had to evict. *)
Theorem overwrite_semantics (c : Cache) (B : Page) :
  reachable c → is_Some (pages c !! URL B) → fits B c →
  ∃ c', AddPage B c = (Ret tt, c') ∧
        pages c' !! URL B = Some B ∧
        last (urls c') = Some (URL B) ∧
        (∀ now, timeout c = 0 ∨ Since now (MadeAt B) < timeout c →
                fst (GetPage now (URL B) c') = Ret (Some B, true)) ∧
        ∃ n n', fst (NumPages c) = Ret n ∧ fst (NumPages c') = Ret n' ∧
                n' ≤ n ∧ (¬ evicts B c → n' = n).
Proof.
  intros Hc Hin Hfit. pose proof (reachable_inv c Hc) as Hinv.
  assert (Hu : URL B ≠ "").
  { intros He. rewrite He in Hin. rewrite (inv_nonempty_url _ Hinv) in Hin.
    by destruct Hin. }
  destruct (AddPage_run B c Hinv Hu Hfit) as (c1 & c2 & _ & H1 & _ & H2 & Hrun).
  eexists. split; [exact Hrun|].
  pose proof (ep_inv _ _ _ H2) as Hinv2.
  split; [apply lookup_insert_eq|].
  split; [apply last_snoc|]. split.
  - intros now Hfresh.
    rewrite GetPage_run by apply (inv_mu _ Hinv2).
    unfold lookup_fresh. simpl. rewrite lookup_insert_eq.
    pose proof (ep_limits _ _ _ H1) as HL1. injection HL1 as _ _ HT1.
    pose proof (ep_limits _ _ _ H2) as HL2. injection HL2 as _ _ HT2.
    rewrite HT2, HT1.
    destruct Hfresh as [H0|Hlt].
    + by rewrite (bool_decide_true _ H0).
    + rewrite (bool_decide_true (Since _ _ < _) Hlt). by rewrite orb_true_r.
  - rewrite !NumPages_run by (apply (inv_mu _ Hinv2) || apply (inv_mu _ Hinv)).
    eexists _, _. split; [done|]. split; [done|]. simpl.
    assert (Hsub : pages c2 ⊆ pages c).
    { etrans; [apply (ep_sub _ _ _ H2)|apply (ep_sub _ _ _ H1)]. }
    split.
    + rewrite map_size_insert.
      destruct (pages c2 !! URL B) as [q|] eqn:Hq; simpl.
      * pose proof (map_subseteq_size _ _ Hsub). lia.
      * assert (Hsub' : pages c2 ⊆ delete (URL B) (pages c)).
        { apply map_subseteq_spec. intros i x Hi.
          rewrite lookup_delete_ne by (intros <-; congruence).
          by eapply lookup_weaken. }
        pose proof (map_subseteq_size _ _ Hsub') as Hle.
        rewrite map_size_delete_Some in Hle by done.
        destruct Hin as [a Ha].
        assert (size (pages c) ≠ 0%nat).
        { intros Hz%map_size_empty_inv. by rewrite Hz in Ha. }
        lia.
    + intros [Ht1 Ht2]%not_evicts.
      rewrite (ep_skip _ _ _ H1 Ht1) in H2.
      assert (Ht2' : test_size B (log query_trace c) = false) by exact Ht2.
      rewrite (ep_skip _ _ _ H2 Ht2'). simpl.
      by rewrite map_size_insert_Some.
Qed.

Lemma overwrite_semantics_witness :
  let c := snd (run [OSetMaxPages 2; OAddPage (mkPage "a" "1" 0);
                     OAddPage (mkPage "x" "A" 0)] init) in
  let B := mkPage "x" "B" 0 in
  ∃ c', AddPage B c = (Ret tt, c') ∧
        pages c' !! URL B = Some B ∧
        last (urls c') = Some (URL B) ∧
        (∀ now, timeout c = 0 ∨ Since now (MadeAt B) < timeout c →
                fst (GetPage now (URL B) c') = Ret (Some B, true)) ∧
        ∃ n n', fst (NumPages c) = Ret n ∧ fst (NumPages c') = Ret n' ∧
                n' ≤ n ∧ (¬ evicts B c → n' = n).
Proof.
  intros c B. apply overwrite_semantics.
  - apply (reachable_run [OSetMaxPages 2; OAddPage (mkPage "a" "1" 0);
                          OAddPage (mkPage "x" "A" 0)] init);
      [constructor | by vm_compute].
  - vm_compute. eauto.
  - unfold fits. vm_compute. by intros [? ?].
Defined.

(** ** Lookup and staleness *)

(** [GetPage] finds a page exactly when [pages] holds it and either
    [timeout] is zero or the page is younger than [timeout]. *)
Lemma lookup_fresh_found now url c p :
  lookup_fresh now url c = (Some p, true) ↔
  pages c !! url = Some p ∧ (timeout c = 0 ∨ Since now (MadeAt p) < timeout c).
Proof.
  unfold lookup_fresh. destruct (pages c !! url) as [q|]; [|naive_solver].
  destruct (bool_decide (timeout c = 0) || bool_decide (Since now (MadeAt q) < timeout c))
    eqn:Hb.
  - apply orb_true_iff in Hb. rewrite !bool_decide_eq_true in Hb. naive_solver.
  - apply orb_false_iff in Hb. rewrite !bool_decide_eq_false in Hb.
    split; [done|]. intros [[= ->] ?]. tauto.
Qed.

(** A lookup that misses, stale page or not, leaves [(None, false)]. *)
Lemma lookup_fresh_missed now url c :
  (∀ p, lookup_fresh now url c ≠ (Some p, true)) →
  lookup_fresh now url c = (None, false).
Proof.
  unfold lookup_fresh. destruct (pages c !! url) as [q|]; [|done].
  destruct (_ || _); [|done]. intros H. by destruct (H q).
Qed.

(** [GetPage] changes neither [pages] nor [urls]: a stale page stays. *)
Lemma GetPage_keeps_store now url c :
  mu c = Unlocked →
  pages (snd (GetPage now url c)) = pages c ∧
  urls (snd (GetPage now url c)) = urls c.
Proof. intros Hmu. by rewrite GetPage_run. Qed.

(** A timeout of [t] seconds is kept as [t * Second] nanoseconds as long as
    the product fits in 64 bits. *)
Lemma SetTimeout_in_range t c :
  0 < t → t * Second < 2 ^ 63 →
  timeout (snd (SetTimeout t c)) = t * Second.
Proof.
  intros Hpos Hlt. unfold SetTimeout. rewrite decide_False by lia. simpl.
  unfold wrap64. unfold Second in *.
  rewrite Z.mod_small by lia. lia.
Qed.

Lemma SetTimeout_forever t c : t ≤ 0 → timeout (snd (SetTimeout t c)) = 0.
Proof. intros Hle. unfold SetTimeout. by rewrite decide_True. Qed.

(** C6. The product [time.Duration(t) * time.Second] wraps around: a
    timeout of 10000000000 seconds is stored as a negative duration, and a
    page made one nanosecond ago, which [pages] holds, is not found. *)
Example timeout_overflow :
  let p := mkPage "x" "hello" 0 in
  let c := snd (run [OSetTimeout 10000000000; OAddPage p] init) in
  fst (run [OSetTimeout 10000000000; OAddPage p] init) = Ret tt ∧
  timeout c = -8446744073709551616 ∧
  pages c !! "x" = Some p ∧
  Since 1 (MadeAt p) < 10000000000 * Second ∧
  fst (GetPage 1 "x" c) = Ret (None, false).
Proof. by vm_compute. Qed.

(** C7. With [maxSize] set to 10 on the initial cache, after a page of six
    bytes is added under "a", adding a page of six bytes under "b" first
    empties the cache in the size loop and then stores "b": "a" is no longer
    found and "b" is. *)
Theorem byte_size_eviction (pa pb : Page) (now : Z) :
  URL pa = "a" → URL pb = "b" → Size pa = 6 → Size pb = 6 →
  ∃ c1 c2 c3,
    (SetMaxSize 10 ;; AddPage pa) init = (Ret tt, c1) ∧
    pages c1 !! "a" = Some pa ∧
    (evictPages ;; evictSize pb) c1 = (Ret tt, c2) ∧
    pages c2 = ∅ ∧
    AddPage pb c1 = (Ret tt, c3) ∧
    urls c3 = ["b"] ∧
    fst (GetPage now "a" c3) = Ret (None, false) ∧
    fst (GetPage now "b" c3) = Ret (Some pb, true).
Proof.
  destruct pa as [ua ra ta], pb as [ub rb tb]. unfold Size. simpl.
  intros -> -> Ha Hb.
  assert (Hla : String.length ra = 6%nat) by lia.
  assert (Hlb : String.length rb = 6%nat) by lia.
  clear Ha Hb.
  destruct ra as [|a1 [|a2 [|a3 [|a4 [|a5 [|a6 [|a7 ra]]]]]]]; try discriminate Hla.
  destruct rb as [|b1 [|b2 [|b3 [|b4 [|b5 [|b6 [|b7 rb]]]]]]]; try discriminate Hlb.
  set (pa := mkPage "a" _ ta). set (pb := mkPage "b" _ tb).
  exists (snd ((SetMaxSize 10 ;; AddPage pa) init)).
  exists (snd ((SetMaxSize 10 ;; AddPage pa ;; evictPages ;; evictSize pb) init)).
  exists (snd ((SetMaxSize 10 ;; AddPage pa ;; AddPage pb) init)).
  do 7 (split; [by vm_compute|]). by vm_compute.
Qed.

Lemma byte_size_eviction_witness :
  let pa := mkPage "a" "aaaaaa" 0 in
  let pb := mkPage "b" "bbbbbb" 7 in
  ∃ c1 c2 c3,
    (SetMaxSize 10 ;; AddPage pa) init = (Ret tt, c1) ∧
    pages c1 !! "a" = Some pa ∧
    (evictPages ;; evictSize pb) c1 = (Ret tt, c2) ∧
    pages c2 = ∅ ∧
    AddPage pb c1 = (Ret tt, c3) ∧
    urls c3 = ["b"] ∧
    fst (GetPage 9 "a" c3) = Ret (None, false) ∧
    fst (GetPage 9 "b" c3) = Ret (Some pb, true).
Proof.
  intros pa pb. apply (byte_size_eviction pa pb 9); reflexivity.
Defined.

(** ** The lock discipline *)

(** The parts of [AddPage] between which the mutex is free: the condition
    of the count loop, the two loops, and the write that follows them. *)
Definition count_cond : M bool :=
  n <- NumPages ;; mP <- load_maxPages ;;
  ret (bool_decide (mP ≤ n) && bool_decide (0 < mP)).

Definition AddPage_evict (p : Page) : M unit := evictPages ;; evictSize p.

Definition AddPage_write (p : Page) : M unit :=
  Lock ;;
  update_pages <[URL p := p]> ;;
  removeURL (URL p) ;;
  update_urls (λ s, s ++ [URL p]) ;;
  Unlock.

(** The count loop starts with its condition; when it holds, the loop goes on
    with [RemovePage(urls[0])]. *)
Lemma evictPages_first_step c :
  evictPages c =
  (b <- count_cond ;;
   if b : bool
   then (evictHead ;; while (length (urls c)) count_cond evictHead)
   else ret tt) c.
Proof. reflexivity. Qed.

Lemma bind_assoc {A B C} (m : M A) (k : A → M B) (h : B → M C) c :
  bind (bind m k) h c = bind m (λ a, bind (k a) h) c.
Proof. unfold bind. by destruct (m c) as [[a| | |] c1]. Qed.

(** [AddPage] of a page that passes the guards is the loops, then the
    write. *)
Lemma AddPage_parts p c :
  URL p ≠ "" → fits p c →
  AddPage p c = (AddPage_evict p ;; AddPage_write p) c.
Proof.
  intros Hu Hfit. unfold AddPage. rewrite decide_False by done.
  unfold bind at 1. unfold load_maxSize. rewrite decide_False by done.
  unfold AddPage_evict. by rewrite bind_assoc.
Qed.

Lemma write_trace_exclusive p s : exclusive_section (write_trace p s) = true.
Proof.
  unfold write_trace.
  replace (removeURL_trace (URL p) s ++ [EvWrite Vurls; EvUnlock])
    with ((removeURL_trace (URL p) s ++ [EvWrite Vurls]) ++ [EvUnlock])
    by (by rewrite <- app_assoc).
  apply (exclusive_section_intro
           (EvWrite Vpages :: removeURL_trace (URL p) s ++ [EvWrite Vurls])).
  simpl. rewrite forallb_app, removeURL_trace_access. done.
Qed.

(** C9. [AddPage] does not run under one exclusive lock.  With room for one
    page and "a" cached, a sequential [AddPage] of "b" runs its loop
    condition under the read lock, reads [urls[0]] with no lock held, evicts
    through [RemovePage], which locks and unlocks, and only then takes the
    lock for its own write: two exclusive sections, not one.  The mutex is
    free between these parts, so calls of other goroutines can run there.
    First schedule: after the count condition of [AddPage] has held,
    [ClearPages] of another caller runs, and [RemovePage(urls[0])] then
    indexes an empty [urls] and panics.  Second schedule: with room for one
    page of one byte and an empty cache, two callers both finish their loops
    before either writes; both pages are written and the cache holds two
    pages and two bytes. *)
Example AddPage_not_atomic :
  let c := snd (run [OSetMaxPages 1; OAddPage (mkPage "a" "1" 0)] init) in
  let p := mkPage "b" "2" 0 in
  events (AddPage p) c =
    query_trace ++ [EvRead Vurls] ++ RemovePage_trace "a" ["a"] ++
    query_trace ++ query_trace ++ write_trace p [] ∧
  exclusive_section (events (AddPage p) c) = false ∧
  count_occ Event_eq_dec (events (AddPage p) c) EvLock = 2%nat ∧
  count_cond c = (Ret true, log query_trace c) ∧
  mu (log query_trace c) = Unlocked ∧
  fst (ClearPages (log query_trace c)) = Ret tt ∧
  mu (snd (ClearPages (log query_trace c))) = Unlocked ∧
  fst ((count_cond ;; ClearPages ;; evictHead) c) = Panic ∧
  let c0 := snd (run [OSetMaxPages 1; OSetMaxSize 1] init) in
  let pa := mkPage "x" "1" 0 in
  let pb := mkPage "y" "2" 0 in
  mu (snd (AddPage_evict pa c0)) = Unlocked ∧
  mu (snd ((AddPage_evict pa ;; AddPage_evict pb) c0)) = Unlocked ∧
  mu (snd ((AddPage_evict pa ;; AddPage_evict pb ;; AddPage_write pa) c0)) = Unlocked ∧
  fst ((AddPage_evict pa ;; AddPage_evict pb ;;
        AddPage_write pa ;; AddPage_write pb ;; NumPages) c0) = Ret 2 ∧
  fst ((AddPage_evict pa ;; AddPage_evict pb ;;
        AddPage_write pa ;; AddPage_write pb ;; SizePages) c0) = Ret 2 ∧
  limits (snd ((AddPage_evict pa ;; AddPage_evict pb ;;
                AddPage_write pa ;; AddPage_write pb) c0)) = (1, 1, 0).
Proof. by vm_compute. Qed.

(** * Further properties of the package *)

(** ** [removeIndex] *)

(** X1. [removeIndex s i] panics exactly when [i] is out of range.
    Otherwise the result is one element shorter, holds at [i] the former
    last element, and agrees with [s] everywhere else: the element at [i] is
    replaced, and the elements after it do not move down. *)
Theorem removeIndex_spec (s : list string) (i : nat) :
  ((length s ≤ i)%nat ∧ removeIndex s i = None) ∨
  ((i < length s)%nat ∧
   ∃ s', removeIndex s i = Some s' ∧
         length s' = (length s - 1)%nat ∧
         ∀ j, (j < length s - 1)%nat →
              s' !! j = if decide (j = i) then s !! (length s - 1)%nat else s !! j).
Proof.
  destruct (decide (i < length s)%nat) as [Hlt|Hge].
  - right. split; [done|].
    destruct (lookup_lt_is_Some_2 s i Hlt) as [x Hx].
    destruct (lookup_lt_is_Some_2 s (length s - 1)) as [y Hy]; [lia|].
    unfold removeIndex. rewrite Hx, Hy. eexists. split; [done|]. split.
    + rewrite length_take, !length_insert. lia.
    + intros j Hj. rewrite lookup_take, decide_True by done.
      rewrite list_lookup_insert, length_insert.
      destruct (decide (j = i)) as [->|Hne].
      * by rewrite decide_True.
      * rewrite decide_False by (intros [? _]; congruence).
        rewrite list_lookup_insert_ne by lia. done.
  - left. split; [lia|]. unfold removeIndex.
    rewrite (lookup_ge_None_2 s i) by lia. by destruct (s !! _).
Qed.

(** ** [RemovePage] *)

(** X2. [RemovePage] of a URL that is not cached changes neither [pages] nor
    [urls], and removing the same URL a second time changes nothing more. *)
Theorem RemovePage_idempotent (c : Cache) (url : string) :
  reachable c →
  ∃ c1 c2,
    RemovePage url c = (Ret tt, c1) ∧ RemovePage url c1 = (Ret tt, c2) ∧
    pages c2 = pages c1 ∧ urls c2 = urls c1 ∧
    (pages c !! url = None → pages c1 = pages c ∧ urls c1 = urls c).
Proof.
  intros Hc. pose proof (reachable_inv c Hc) as Hinv.
  pose proof (inv_mu _ Hinv) as Hmu.
  assert (Habsent : ∀ c0, inv c0 → pages c0 !! url = None →
            delete url (pages c0) = pages c0 ∧ remove_url url (urls c0) = urls c0).
  { intros c0 Hinv0 Hn. split; [by apply delete_id|].
    apply remove_url_notin. intros Hin.
    assert (url ∈ dom (pages c0)) as Hd.
    { rewrite <- (inv_dom _ Hinv0). by apply elem_of_list_to_set. }
    apply elem_of_dom in Hd as [q Hq]. congruence. }
  pose (c1 := log (RemovePage_trace url (urls c)) (removed url c)).
  assert (Hrun : RemovePage url c = (Ret tt, c1)) by (by rewrite RemovePage_run).
  assert (Hinv1 : inv c1) by (by apply inv_log, inv_removed).
  exists c1. rewrite (RemovePage_run url c1) by apply (inv_mu _ Hinv1).
  eexists. split; [done|]. split; [done|].
  destruct (Habsent c1 Hinv1) as [Hp Hu]; [apply lookup_delete_eq|].
  split; [exact Hp|]. split; [exact Hu|].
  intros Hn. by destruct (Habsent c Hinv Hn).
Qed.

Lemma RemovePage_idempotent_witness :
  ∃ c1 c2,
    RemovePage "b" witness_state = (Ret tt, c1) ∧
    RemovePage "b" c1 = (Ret tt, c2) ∧
    pages c2 = pages c1 ∧ urls c2 = urls c1 ∧
    (pages witness_state !! "b" = None →
     pages c1 = pages witness_state ∧ urls c1 = urls witness_state).
Proof. apply RemovePage_idempotent, witness_state_reachable. Defined.

(** X3. [RemovePage] of a cached URL removes that page and no other: the
    URL is no longer found and no longer listed in [urls], every other
    lookup answers as before, the count goes down by one and the total size
    by the size of the page. *)
Theorem RemovePage_removes (c : Cache) (url : string) (p : Page) :
  reachable c → pages c !! url = Some p →
  ∃ c', RemovePage url c = (Ret tt, c') ∧
        (url ∉ urls c') ∧ (urls c ≡ₚ url :: urls c') ∧
        (∀ now, fst (GetPage now url c') = Ret (None, false)) ∧
        (∀ now u, u ≠ url → fst (GetPage now u c') = fst (GetPage now u c)) ∧
        (∃ n, fst (NumPages c) = Ret n ∧ fst (NumPages c') = Ret (n - 1)) ∧
        (∃ n, fst (SizePages c) = Ret n ∧ fst (SizePages c') = Ret (n - Size p)).
Proof.
  intros Hc Hp. pose proof (reachable_inv c Hc) as Hinv.
  pose proof (inv_mu _ Hinv) as Hmu.
  pose (c' := log (RemovePage_trace url (urls c)) (removed url c)).
  assert (Hrun : RemovePage url c = (Ret tt, c')) by (by rewrite RemovePage_run).
  assert (Hinv' : inv c') by (by apply inv_log, inv_removed).
  pose proof (inv_mu _ Hinv') as Hmu'.
  assert (Hin : url ∈ urls c).
  { apply (elem_of_list_to_set (C := gset string)).
    rewrite (inv_dom _ Hinv). apply elem_of_dom. eauto. }
  pose proof (remove_url_perm url (urls c) Hin) as Hperm.
  exists c'. split; [done|]. split; [|split; [exact Hperm|]].
  { pose proof (inv_nodup _ Hinv) as Hnd. rewrite Hperm in Hnd.
    by apply NoDup_cons in Hnd as [? _]. }
  split; [|split; [|split]].
  - intros now. rewrite GetPage_run by done. unfold lookup_fresh. simpl.
    by rewrite lookup_delete_eq.
  - intros now u Hne. rewrite !GetPage_run by done. unfold lookup_fresh. simpl.
    by rewrite lookup_delete_ne.
  - rewrite !NumPages_run by done. eexists. split; [done|]. simpl.
    rewrite map_size_delete_Some by eauto.
    assert (size (pages c) ≠ 0%nat).
    { intros Hz%map_size_empty_inv. by rewrite Hz in Hp. }
    f_equal. lia.
  - rewrite !SizePages_run by done. eexists. split; [done|]. simpl.
    rewrite (total_size_delete_Some (pages c) url p Hp). f_equal. lia.
Qed.

Lemma RemovePage_removes_witness :
  ∃ c', RemovePage "c" witness_state = (Ret tt, c') ∧
        ("c" ∉ urls c') ∧ (urls witness_state ≡ₚ "c" :: urls c') ∧
        (∀ now, fst (GetPage now "c" c') = Ret (None, false)) ∧
        (∀ now u, u ≠ "c" →
                  fst (GetPage now u c') = fst (GetPage now u witness_state)) ∧
        (∃ n, fst (NumPages witness_state) = Ret n ∧
              fst (NumPages c') = Ret (n - 1)) ∧
        (∃ n, fst (SizePages witness_state) = Ret n ∧
              fst (SizePages c') = Ret (n - Size (mkPage "c" "333" 0))).
Proof.
  apply (RemovePage_removes witness_state "c" (mkPage "c" "333" 0)).
  - apply witness_state_reachable.
  - by vm_compute.
Defined.

(** ** [AddPage] of a page that passes the guards *)

Lemma while_step n cond body c (b : bool) c1 :
  cond c = (Ret b, c1) →
  while (S n) cond body c =
  if b then (body ;; while n cond body) c1 else (Ret tt, c1).
Proof. intros H. simpl. unfold bind at 1. rewrite H. by destruct b. Qed.

(** When neither loop condition holds, the page is written and nothing else
    changes. *)
Lemma AddPage_no_evict p c :
  inv c → URL p ≠ "" → fits p c →
  test_pages c = false → test_size p c = false →
  ∃ t, AddPage p c = (Ret tt, log t (added p c)).
Proof.
  intros Hinv Hu Hfit Ht1 Ht2.
  destruct (AddPage_run p c Hinv Hu Hfit) as (c1 & c2 & _ & H1 & _ & H2 & ->).
  rewrite (ep_skip _ _ _ H1 Ht1) in H2.
  assert (Ht2' : test_size p (log query_trace c) = false) by exact Ht2.
  rewrite (ep_skip _ _ _ H2 Ht2').
  eexists (query_trace ++ query_trace ++ _). f_equal. cache_eq.
Qed.

(** At a cache that holds exactly [maxPages] pages, the count loop removes
    [urls[0]] and stops. *)
Lemma evictPages_full c :
  inv c → 0 < maxPages c → Z.of_nat (size (pages c)) = maxPages c →
  ∃ u s t, urls c = u :: s ∧ evictPages c = (Ret tt, log t (removed u c)).
Proof.
  intros Hinv Hpos Hfull. pose proof (inv_mu _ Hinv) as Hmu.
  pose proof (inv_length c Hinv) as Hlen.
  destruct (urls c) as [|u s] eqn:Hs; [simpl in Hlen; lia|].
  exists u, s. unfold evictPages, for_. rewrite Hs.
  change (length (u :: s)) with (S (length s)).
  rewrite (while_step _ _ _ c true (log query_trace c)).
  2:{ unfold bind. rewrite NumPages_run by done. unfold load_maxPages, ret.
      simpl. rewrite !bool_decide_true by lia. done. }
  unfold bind. rewrite (evictHead_run _ u s) by done.
  set (c1 := log _ (removed u (log query_trace c))).
  assert (Hsz : size (pages c1) = pred (size (pages c))).
  { simpl. apply map_size_delete_Some.
    apply elem_of_dom. rewrite <- (inv_dom _ Hinv), Hs.
    apply elem_of_list_to_set, elem_of_cons. by left. }
  rewrite (while_step _ _ _ c1 false (log query_trace c1)).
  2:{ unfold bind. rewrite NumPages_run by done. unfold load_maxPages, ret.
      simpl maxPages. rewrite Hsz, bool_decide_false by lia. done. }
  eexists (query_trace ++ (EvRead Vurls :: RemovePage_trace u (u :: s)) ++ query_trace).
  split; [done|]. f_equal.
  cache_eq; rewrite ?Hs; unfold RemovePage_trace; simpl;
    rewrite <- ?app_assoc; done.
Qed.

(** X4. An accepted page is always cached by [AddPage]: afterwards [pages]
    maps its URL to it, its URL is last in [urls], and [GetPage] answers it
    exactly when it is not stale. *)
Theorem AddPage_then_GetPage (c : Cache) (p : Page) :
  reachable c → URL p ≠ "" → fits p c →
  ∃ c', AddPage p c = (Ret tt, c') ∧
        pages c' !! URL p = Some p ∧
        last (urls c') = Some (URL p) ∧
        ∀ now, fst (GetPage now (URL p) c') =
               if decide (timeout c = 0 ∨ Since now (MadeAt p) < timeout c)
               then Ret (Some p, true) else Ret (None, false).
Proof.
  intros Hc Hu Hfit. pose proof (reachable_inv c Hc) as Hinv.
  destruct (AddPage_run p c Hinv Hu Hfit) as (c1 & c2 & _ & H1 & _ & H2 & Hrun).
  eexists. split; [exact Hrun|].
  split; [apply lookup_insert_eq|]. split; [apply last_snoc|].
  intros now. rewrite GetPage_run by apply (inv_mu _ (ep_inv _ _ _ H2)).
  unfold lookup_fresh. simpl. rewrite lookup_insert_eq.
  pose proof (ep_limits _ _ _ H1) as HL1. injection HL1 as _ _ HT1.
  pose proof (ep_limits _ _ _ H2) as HL2. injection HL2 as _ _ HT2.
  rewrite HT2, HT1.
  destruct (decide (timeout c = 0 ∨ _)) as [[H0|Hlt]|Hn].
  - by rewrite (bool_decide_true _ H0).
  - rewrite (bool_decide_true (Since _ _ < _) Hlt). by rewrite orb_true_r.
  - rewrite !bool_decide_false by tauto. done.
Qed.

Lemma AddPage_then_GetPage_witness :
  let p := mkPage "n" "new" 4 in
  ∃ c', AddPage p witness_state = (Ret tt, c') ∧
        pages c' !! URL p = Some p ∧
        last (urls c') = Some (URL p) ∧
        ∀ now, fst (GetPage now (URL p) c') =
               if decide (timeout witness_state = 0 ∨
                          Since now (MadeAt p) < timeout witness_state)
               then Ret (Some p, true) else Ret (None, false).
Proof.
  intros p. apply AddPage_then_GetPage.
  - apply witness_state_reachable.
  - done.
  - unfold fits. vm_compute. by intros [? ?].
Defined.

(** X5. [AddPage] touches no other entry: whatever page is cached afterwards
    under a URL other than the added one was cached under that URL before.
    Other entries are kept or evicted, never changed or created. *)
Theorem AddPage_keeps_others (c : Cache) (p : Page) :
  reachable c →
  ∃ c', AddPage p c = (Ret tt, c') ∧
        ∀ u q, u ≠ URL p → pages c' !! u = Some q → pages c !! u = Some q.
Proof.
  intros Hc. pose proof (reachable_inv c Hc) as Hinv.
  destruct (decide (URL p = "")) as [Hu|Hu].
  { exists c. by rewrite AddPage_reject by auto. }
  destruct (decide (maxSize c < Size p ∧ 0 < maxSize c)) as [Hbig|Hfit].
  { exists c. by rewrite AddPage_reject by auto. }
  destruct (AddPage_run p c Hinv Hu Hfit) as (c1 & c2 & _ & H1 & _ & H2 & Hrun).
  eexists. split; [exact Hrun|]. intros u q Hne. simpl.
  rewrite lookup_insert_ne by done. intros Hq.
  eapply lookup_weaken; [|apply (ep_sub _ _ _ H1)].
  eapply lookup_weaken; [exact Hq|apply (ep_sub _ _ _ H2)].
Qed.

Lemma AddPage_keeps_others_witness :
  ∃ c', AddPage (mkPage "n" "new" 4) witness_state = (Ret tt, c') ∧
        ∀ u q, u ≠ URL (mkPage "n" "new" 4) →
               pages c' !! u = Some q → pages witness_state !! u = Some q.
Proof. apply AddPage_keeps_others, witness_state_reachable. Defined.

(** X6. When there is room ([AddPage] does not have to evict), an accepted
    page is simply written: [pages] gains or replaces that one entry, and
    for a URL that was not cached [urls] grows by it at the end, the count
    by one and the total size by the size of the page. *)
Theorem AddPage_with_room (c : Cache) (p : Page) :
  reachable c → URL p ≠ "" → fits p c → ¬ evicts p c →
  ∃ c', AddPage p c = (Ret tt, c') ∧
        pages c' = <[URL p := p]> (pages c) ∧
        (pages c !! URL p = None →
         urls c' = urls c ++ [URL p] ∧
         (∃ n, fst (NumPages c) = Ret n ∧ fst (NumPages c') = Ret (n + 1)) ∧
         (∃ n, fst (SizePages c) = Ret n ∧ fst (SizePages c') = Ret (n + Size p))).
Proof.
  intros Hc Hu Hfit [Ht1 Ht2]%not_evicts.
  pose proof (reachable_inv c Hc) as Hinv.
  destruct (AddPage_no_evict p c Hinv Hu Hfit Ht1 Ht2) as (t & Hrun).
  eexists. split; [exact Hrun|]. split; [done|].
  intros Hnew.
  assert (Hinv' : inv (log t (added p c))) by (by apply inv_log, inv_added).
  pose proof (inv_mu _ Hinv) as Hmu. pose proof (inv_mu _ Hinv') as Hmu'.
  split; [|split].
  - simpl. rewrite remove_url_notin; [done|]. intros Hin.
    assert (URL p ∈ dom (pages c)) as Hd.
    { rewrite <- (inv_dom _ Hinv). by apply elem_of_list_to_set. }
    apply elem_of_dom in Hd as [q Hq]. congruence.
  - rewrite !NumPages_run by done. eexists. split; [done|]. simpl.
    rewrite map_size_insert_None by done. f_equal. lia.
  - rewrite !SizePages_run by done. eexists. split; [done|]. simpl.
    by rewrite total_size_insert_None.
Qed.

Lemma AddPage_with_room_witness :
  let p := mkPage "n" "new" 4 in
  ∃ c', AddPage p witness_state = (Ret tt, c') ∧
        pages c' = <[URL p := p]> (pages witness_state) ∧
        (pages witness_state !! URL p = None →
         urls c' = urls witness_state ++ [URL p] ∧
         (∃ n, fst (NumPages witness_state) = Ret n ∧
               fst (NumPages c') = Ret (n + 1)) ∧
         (∃ n, fst (SizePages witness_state) = Ret n ∧
               fst (SizePages c') = Ret (n + Size p))).
Proof.
  intros p. apply AddPage_with_room.
  - apply witness_state_reachable.
  - done.
  - unfold fits. vm_compute. by intros [? ?].
  - unfold evicts. vm_compute. intros [[_ H]|[H _]]; [by apply H | discriminate H].
Defined.

(** X7. With no size limit, [AddPage] of an accepted page to a cache that
    holds exactly [maxPages] pages evicts [urls[0]] and nothing else: the
    new [pages] is the old one without the page of [urls[0]] and with the
    added page.  (The head is evicted even when the added URL is already
    cached.) *)
Theorem AddPage_evicts_head_only (c : Cache) (p : Page) :
  reachable c → URL p ≠ "" → maxSize c ≤ 0 →
  0 < maxPages c → Z.of_nat (size (pages c)) = maxPages c →
  ∃ u s c', urls c = u :: s ∧ AddPage p c = (Ret tt, c') ∧
            pages c' = <[URL p := p]> (delete u (pages c)) ∧
            urls c' = remove_url (URL p) (remove_url u (urls c)) ++ [URL p].
Proof.
  intros Hc Hu HmS Hpos Hfull. pose proof (reachable_inv c Hc) as Hinv.
  assert (Hfit : fits p c) by (unfold fits; lia).
  destruct (evictPages_full c Hinv Hpos Hfull) as (u & s & t & Hs & Hev).
  destruct (AddPage_run p c Hinv Hu Hfit) as (c1 & c2 & Hev' & H1 & _ & H2 & Hrun).
  rewrite Hev in Hev'. injection Hev' as <-.
  assert (Ht2 : test_size p (log t (removed u c)) = false).
  { unfold test_size. simpl. apply andb_false_iff. right.
    apply bool_decide_eq_false. lia. }
  rewrite (ep_skip _ _ _ H2 Ht2) in Hrun.
  exists u, s. eexists. split; [done|]. split; [exact Hrun|]. done.
Qed.

Lemma AddPage_evicts_head_only_witness :
  let c := snd (run [OSetMaxPages 2; OAddPage (mkPage "a" "1" 0);
                     OAddPage (mkPage "b" "22" 0)] init) in
  let p := mkPage "n" "new" 4 in
  ∃ u s c', urls c = u :: s ∧ AddPage p c = (Ret tt, c') ∧
            pages c' = <[URL p := p]> (delete u (pages c)) ∧
            urls c' = remove_url (URL p) (remove_url u (urls c)) ++ [URL p].
Proof.
  intros c p. apply AddPage_evicts_head_only.
  - apply (reachable_run [OSetMaxPages 2; OAddPage (mkPage "a" "1" 0);
                          OAddPage (mkPage "b" "22" 0)] init);
      [constructor | by vm_compute].
  - done.
  - by vm_compute.
  - by vm_compute.
  - by vm_compute.
Defined.

(** X8. In every reachable state, also one that exceeds its limits because
    they were lowered after the pages were added, an [AddPage] that accepts
    its page leaves the cache within both limits. *)
Theorem AddPage_restores_bounds (c : Cache) (p : Page) :
  reachable c → URL p ≠ "" → fits p c →
  ∃ c', AddPage p c = (Ret tt, c') ∧
        (∃ n, fst (NumPages c') = Ret n ∧ (0 < maxPages c → n ≤ maxPages c)) ∧
        (∃ n, fst (SizePages c') = Ret n ∧ (0 < maxSize c → n ≤ maxSize c)).
Proof.
  intros Hc Hu Hfit. pose proof (reachable_inv c Hc) as Hinv.
  destruct (AddPage_run p c Hinv Hu Hfit) as (c1 & c2 & _ & H1 & _ & H2 & Hrun).
  eexists. split; [exact Hrun|].
  destruct H1 as [_ Hl1 Ht1 _ _ _], H2 as [Hinv2 Hl2 Ht2 Hsub2 _ _].
  injection Hl1 as HP1 HS1 HT1. injection Hl2 as HP2 HS2 HT2.
  assert (Hmu' : mu (log (write_trace p (urls c2)) (added p c2)) = Unlocked)
    by apply (inv_mu _ Hinv2).
  split.
  - rewrite NumPages_run by done. eexists. split; [done|]. simpl.
    intros Hpos. unfold test_pages in Ht1.
    apply andb_false_iff in Ht1 as [Ht1|Ht1]; apply bool_decide_eq_false in Ht1;
      [|lia].
    pose proof (map_subseteq_size _ _ Hsub2) as Hsz.
    pose proof (map_size_insert (URL p) p (pages c2)) as Hins.
    destruct (pages c2 !! URL p); simpl in Hins; lia.
  - rewrite SizePages_run by done. eexists. split; [done|]. simpl.
    intros Hpos. unfold test_size in Ht2.
    apply andb_false_iff in Ht2 as [Ht2|Ht2]; apply bool_decide_eq_false in Ht2;
      [|lia].
    pose proof (total_size_insert_le (pages c2) (URL p) p). lia.
Qed.

Lemma AddPage_restores_bounds_witness :
  let c := snd (run [OAddPage (mkPage "a" "1" 0); OAddPage (mkPage "b" "22" 0);
                     OAddPage (mkPage "c" "333" 0); OSetMaxPages 1;
                     OSetMaxSize 4] init) in
  let p := mkPage "n" "new" 4 in
  ∃ c', AddPage p c = (Ret tt, c') ∧
        (∃ n, fst (NumPages c') = Ret n ∧ (0 < maxPages c → n ≤ maxPages c)) ∧
        (∃ n, fst (SizePages c') = Ret n ∧ (0 < maxSize c → n ≤ maxSize c)).
Proof.
  intros c p. apply AddPage_restores_bounds.
  - apply (reachable_run [OAddPage (mkPage "a" "1" 0); OAddPage (mkPage "b" "22" 0);
                          OAddPage (mkPage "c" "333" 0); OSetMaxPages 1;
                          OSetMaxSize 4] init);
      [constructor | by vm_compute].
  - done.
  - unfold fits. vm_compute. by intros [? ?].
Defined.

(** ** [SetTimeout] and [GetPage] *)

(** X9. As long as [t] seconds fit in a 64-bit count of nanoseconds, after
    [SetTimeout(t)] a cached page is found exactly when [t <= 0] or the page
    is younger than [t] seconds; a URL that is not cached is not found.  The
    lookup, also of a stale page, leaves [pages] and [urls] as they were. *)
Theorem GetPage_after_SetTimeout (c : Cache) (t now : Z) (url : string) :
  reachable c → t * Second < 2 ^ 63 →
  let c1 := snd (SetTimeout t c) in
  fst (GetPage now url c1) =
    match pages c !! url with
    | Some p => if decide (t ≤ 0 ∨ Since now (MadeAt p) < t * Second)
                then Ret (Some p, true) else Ret (None, false)
    | None => Ret (None, false)
    end ∧
  pages (snd (GetPage now url c1)) = pages c ∧
  urls (snd (GetPage now url c1)) = urls c.
Proof.
  intros Hc Hr c1. pose proof (reachable_inv c Hc) as Hinv.
  assert (Hmu : mu c1 = Unlocked).
  { unfold c1, SetTimeout. case_decide; apply (inv_mu _ Hinv). }
  assert (Hp : pages c1 = pages c ∧ urls c1 = urls c).
  { unfold c1, SetTimeout. by case_decide. }
  destruct Hp as [Hp1 Hp2].
  rewrite GetPage_run by done. simpl. split; [|done].
  unfold lookup_fresh. rewrite Hp1.
  destruct (pages c !! url) as [p|]; [|done].
  destruct (decide (t ≤ 0)) as [Hle|Hgt].
  - unfold c1. rewrite SetTimeout_forever by done.
    rewrite bool_decide_true by done. simpl.
    by rewrite decide_True by auto.
  - unfold c1. rewrite SetTimeout_in_range by lia.
    rewrite (bool_decide_false (t * Second = 0)) by (unfold Second; lia). simpl.
    destruct (decide (Since now (MadeAt p) < t * Second)) as [Hlt|Hn].
    + rewrite bool_decide_true by done. by rewrite decide_True by auto.
    + rewrite bool_decide_false by done. by rewrite decide_False by tauto.
Qed.

Lemma GetPage_after_SetTimeout_witness :
  let c1 := snd (SetTimeout 60 witness_state) in
  fst (GetPage 5 "c" c1) =
    match pages witness_state !! "c" with
    | Some p => if decide (60 ≤ 0 ∨ Since 5 (MadeAt p) < 60 * Second)
                then Ret (Some p, true) else Ret (None, false)
    | None => Ret (None, false)
    end ∧
  pages (snd (GetPage 5 "c" c1)) = pages witness_state ∧
  urls (snd (GetPage 5 "c" c1)) = urls witness_state.
Proof.
  apply (GetPage_after_SetTimeout witness_state 60 5 "c").
  - apply witness_state_reachable.
  - by vm_compute.
Defined.

(** ** What a reachable cache holds *)

(** Every page is stored under its own URL. *)
Definition keyed (c : Cache) : Prop :=
  ∀ u q, pages c !! u = Some q → URL q = u.

Lemma exec_keyed o c c' :
  inv c → keyed c → exec o c = (Ret tt, c') → keyed c'.
Proof.
  intros Hinv Hk. pose proof (inv_mu _ Hinv) as Hmu.
  destruct o as [n|n|t|p|u| | | |now u]; simpl.
  - by intros [= <-].
  - by intros [= <-].
  - unfold SetTimeout. by case_decide; intros [= <-].
  - destruct (decide (URL p = "")) as [Hu|Hu].
    { rewrite AddPage_reject by auto. by intros [= <-]. }
    destruct (decide (maxSize c < Size p ∧ 0 < maxSize c)) as [Hbig|Hfit].
    { rewrite AddPage_reject by auto. by intros [= <-]. }
    destruct (AddPage_run p c Hinv Hu Hfit) as (c1 & c2 & _ & H1 & _ & H2 & ->).
    intros [= <-] u q. simpl.
    destruct (decide (u = URL p)) as [->|Hne].
    + rewrite lookup_insert_eq. by intros [= <-].
    + rewrite lookup_insert_ne by done. intros Hq. apply Hk.
      eapply lookup_weaken; [|apply (ep_sub _ _ _ H1)].
      eapply lookup_weaken; [exact Hq|apply (ep_sub _ _ _ H2)].
  - rewrite RemovePage_run by done. intros [= <-] v q. simpl.
    intros Hq. apply Hk. eapply lookup_weaken; [exact Hq|apply delete_subseteq].
  - rewrite ClearPages_run by done. by intros [= <-] v q.
  - unfold bind. rewrite SizePages_run by done. by intros [= <-].
  - unfold bind. rewrite NumPages_run by done. by intros [= <-].
  - unfold bind. rewrite GetPage_run by done. by intros [= <-].
Qed.

Lemma reachable_keyed c : reachable c → keyed c.
Proof.
  induction 1 as [|c o c' Hc IH Hrun]; [by intros u q|].
  eapply exec_keyed; [by apply reachable_inv|done|done].
Qed.

(** X10. A page with an empty URL is never cached: in every reachable state
    [pages] has no entry for the empty string, [urls] does not list it, and
    [GetPage("")] finds nothing. *)
Theorem empty_URL_never_cached (c : Cache) :
  reachable c →
  pages c !! "" = None ∧ ("" ∉ urls c) ∧
  ∀ now, fst (GetPage now "" c) = Ret (None, false).
Proof.
  intros Hc. pose proof (reachable_inv c Hc) as Hinv.
  pose proof (inv_nonempty_url _ Hinv) as Hne.
  split; [done|]. split.
  - intros Hin.
    assert ("" ∈ dom (pages c)) as Hd.
    { rewrite <- (inv_dom _ Hinv). by apply elem_of_list_to_set. }
    apply elem_of_dom in Hd as [q Hq]. congruence.
  - intros now. rewrite GetPage_run by apply (inv_mu _ Hinv).
    unfold lookup_fresh. by rewrite Hne.
Qed.

Lemma empty_URL_never_cached_witness :
  let c := snd (run [OAddPage (mkPage "" "orphan" 0);
                     OAddPage (mkPage "a" "1" 0)] init) in
  pages c !! "" = None ∧ ("" ∉ urls c) ∧
  ∀ now, fst (GetPage now "" c) = Ret (None, false).
Proof.
  intros c. apply empty_URL_never_cached.
  apply (reachable_run [OAddPage (mkPage "" "orphan" 0);
                        OAddPage (mkPage "a" "1" 0)] init);
    [constructor | by vm_compute].
Defined.

(** X11. The cache hands out the page that was asked for: in every reachable
    state a page is stored under its own URL, so a page that [GetPage(url)]
    finds has [url] as its URL. *)
Theorem GetPage_returns_asked_URL (c : Cache) (now : Z) (url : string) (p : Page) :
  reachable c →
  fst (GetPage now url c) = Ret (Some p, true) →
  URL p = url ∧ pages c !! url = Some p.
Proof.
  intros Hc. pose proof (reachable_inv c Hc) as Hinv.
  rewrite GetPage_run by apply (inv_mu _ Hinv). simpl.
  intros [= Hf]. apply lookup_fresh_found in Hf as [Hp _].
  split; [|done]. by apply (reachable_keyed c Hc).
Qed.

Lemma GetPage_returns_asked_URL_witness :
  URL (mkPage "c" "333" 0) = "c" ∧
  pages witness_state !! "c" = Some (mkPage "c" "333" 0).
Proof.
  apply (GetPage_returns_asked_URL witness_state 7 "c" (mkPage "c" "333" 0)).
  - apply witness_state_reachable.
  - by vm_compute.
Defined.

(** The sizes of the pages that [urls] lists, added up in the order of
    [urls]. *)
Definition listed_size (m : gmap string Page) (l : list string) : Z :=
  foldr (λ u n, n + from_option Size 0 (m !! u)) 0 l.

Lemma listed_size_total l : ∀ m,
  NoDup l → list_to_set l =@{gset string} dom m → total_size m = listed_size m l.
Proof.
  induction l as [|u l IH]; intros m Hnd Hdom; simpl.
  - rewrite list_to_set_nil in Hdom. symmetry in Hdom.
    apply dom_empty_inv_L in Hdom as ->. apply total_size_empty.
  - apply NoDup_cons in Hnd as [Hu Hnd].
    assert (Hin : u ∈ dom m) by (rewrite <- Hdom; set_solver).
    apply elem_of_dom in Hin as [q Hq]. rewrite Hq. simpl.
    rewrite (total_size_delete_Some m u q Hq). f_equal.
    rewrite (IH (delete u m)); [|done|].
    + clear IH Hdom Hnd. induction l as [|v l IHl]; simpl; [done|].
      apply not_elem_of_cons in Hu as [Hne Hu].
      rewrite lookup_delete_ne by done. by rewrite IHl.
    + rewrite dom_delete_L, <- Hdom. simpl.
      apply set_eq. intros x.
      rewrite elem_of_difference, elem_of_union, !elem_of_list_to_set,
        elem_of_singleton.
      split; [|tauto]. intros Hx. split; [tauto|]. by intros ->.
Qed.

(** X12. The two structures agree on the size of the cache: in every
    reachable state [SizePages], which adds up the map, returns the sum of
    the sizes of the pages that [urls] lists, and [NumPages] returns the
    length of [urls]. *)
Theorem SizePages_over_urls (c : Cache) :
  reachable c →
  fst (SizePages c) = Ret (listed_size (pages c) (urls c)) ∧
  fst (NumPages c) = Ret (Z.of_nat (length (urls c))).
Proof.
  intros Hc. pose proof (reachable_inv c Hc) as Hinv.
  pose proof (inv_mu _ Hinv) as Hmu.
  rewrite SizePages_run, NumPages_run by done. simpl. split.
  - f_equal. apply listed_size_total; apply Hinv.
  - by rewrite (inv_length c Hinv).
Qed.

Lemma SizePages_over_urls_witness :
  fst (SizePages witness_state) =
    Ret (listed_size (pages witness_state) (urls witness_state)) ∧
  fst (NumPages witness_state) = Ret (Z.of_nat (length (urls witness_state))).
Proof. apply SizePages_over_urls, witness_state_reachable. Defined.

(** ** [ClearPages] *)

(** X13. [ClearPages] empties the cache and keeps the limits: afterwards the
    count and the total size are zero, no URL is found, and an accepted page
    added next is the only page of the cache. *)
Theorem ClearPages_resets (c : Cache) :
  reachable c →
  ∃ c', ClearPages c = (Ret tt, c') ∧
        limits c' = limits c ∧
        fst (NumPages c') = Ret 0 ∧ fst (SizePages c') = Ret 0 ∧
        (∀ now url, fst (GetPage now url c') = Ret (None, false)) ∧
        ∀ p, URL p ≠ "" → fits p c →
             ∃ c'', AddPage p c' = (Ret tt, c'') ∧
                    pages c'' = {[URL p := p]} ∧ urls c'' = [URL p].
Proof.
  intros Hc. pose proof (reachable_inv c Hc) as Hinv.
  pose proof (inv_mu _ Hinv) as Hmu.
  rewrite ClearPages_run by done. eexists. split; [done|].
  set (c' := log _ _).
  assert (Hinv' : inv c') by (by apply inv_log, inv_cleared).
  pose proof (inv_mu _ Hinv') as Hmu'.
  split; [done|].
  split; [by rewrite NumPages_run by done|].
  split; [by rewrite SizePages_run by done|].
  split.
  - intros now url. by rewrite GetPage_run by done.
  - intros p Hu Hfit.
    destruct (AddPage_no_evict p c' Hinv' Hu) as (t & Hrun).
    + exact Hfit.
    + unfold test_pages. simpl. rewrite map_size_empty.
      apply andb_false_iff.
      destruct (decide (0 < maxPages c)); [left|right];
        apply bool_decide_eq_false; simpl; lia.
    + unfold test_size. simpl. rewrite total_size_empty.
      apply andb_false_iff.
      destruct (decide (0 < maxSize c)); [left|right];
        apply bool_decide_eq_false; unfold fits in Hfit; lia.
    + eexists. split; [exact Hrun|]. simpl. by rewrite insert_empty.
Qed.

Lemma ClearPages_resets_witness :
  ∃ c', ClearPages witness_state = (Ret tt, c') ∧
        limits c' = limits witness_state ∧
        fst (NumPages c') = Ret 0 ∧ fst (SizePages c') = Ret 0 ∧
        (∀ now url, fst (GetPage now url c') = Ret (None, false)) ∧
        ∀ p, URL p ≠ "" → fits p witness_state →
             ∃ c'', AddPage p c' = (Ret tt, c'') ∧
                    pages c'' = {[URL p := p]} ∧ urls c'' = [URL p].
Proof. apply ClearPages_resets, witness_state_reachable. Defined.

(** ** The history of a run *)

Lemma exec_sections o c c' :
  inv c → sections (trace c) → exec o c = (Ret tt, c') → sections (trace c').
Proof.
  intros Hinv Hs. pose proof (inv_mu _ Hinv) as Hmu.
  assert (Hq : sections (trace c ++ query_trace))
    by (apply sections_app; [done|apply sections_query]).
  destruct o as [n|n|t|p|u| | | |now u]; simpl.
  - by intros [= <-].
  - by intros [= <-].
  - unfold SetTimeout. by case_decide; intros [= <-].
  - destruct (decide (URL p = "")) as [Hu|Hu].
    { rewrite AddPage_reject by auto. by intros [= <-]. }
    destruct (decide (maxSize c < Size p ∧ 0 < maxSize c)) as [Hbig|Hfit].
    { rewrite AddPage_reject by auto. by intros [= <-]. }
    destruct (AddPage_run p c Hinv Hu Hfit) as (c1 & c2 & _ & H1 & _ & H2 & ->).
    intros [= <-]. simpl.
    destruct (ep_trace _ _ _ H1) as (t1 & Ht1 & Hs1).
    destruct (ep_trace _ _ _ H2) as (t2 & Ht2 & Hs2).
    rewrite Ht2, Ht1.
    apply sections_app; [apply sections_app; [by apply sections_app|done]|].
    rewrite <- (app_nil_r (write_trace _ _)).
    apply sections_exclusive; [apply write_trace_exclusive|constructor].
  - rewrite RemovePage_run by done. intros [= <-]. simpl.
    apply sections_app; [done|].
    rewrite <- (app_nil_r (RemovePage_trace _ _)).
    apply sections_exclusive; [apply RemovePage_trace_exclusive|constructor].
  - rewrite ClearPages_run by done. intros [= <-]. simpl.
    apply sections_app; [done|].
    apply (sections_exclusive [EvLock; EvWrite Vpages; EvWrite Vurls; EvUnlock] []);
      [done|constructor].
  - unfold bind. rewrite SizePages_run by done. by intros [= <-].
  - unfold bind. rewrite NumPages_run by done. by intros [= <-].
  - unfold bind. rewrite GetPage_run by done. by intros [= <-].
Qed.

(** X14. Over a whole sequential run, whatever public functions are called
    and in whatever order, the recorded history is a run of complete lock
    sections: every write to [pages] or [urls] and every read of [pages]
    happens inside a section that holds the lock in the matching mode, no
    lock is taken while one is held, and every call returns with the mutex
    free.  (Only [urls] is ever read with no lock held.) *)
Theorem history_is_sections (c : Cache) :
  reachable c → sections (trace c) ∧ mu c = Unlocked.
Proof.
  intros Hc. split; [|apply (inv_mu _ (reachable_inv c Hc))].
  induction Hc as [|c o c' Hc IH Hrun]; [constructor|].
  eapply exec_sections; [by apply reachable_inv|done|done].
Qed.

Lemma history_is_sections_witness :
  sections (trace witness_state) ∧ mu witness_state = Unlocked.
Proof. apply history_is_sections, witness_state_reachable. Defined.
